(** * snailviewer: unique ids and liveness pointers

    A shallow embedding of [snailviewer/uid.hpp], [snailviewer/liveness.hpp]
    and [snailviewer/liveness_pthread.cpp], with the properties of the design
    document stated and settled against it.

    [snailviewer/event.hpp] is not embedded.  Its templates are ill-formed
    once instantiated: the generic [eventBus::broadcast] calls
    [std::forward(event)] without a template argument and derives from an
    [eventHolder] whose destructor is private, pure and undefined, and the
    constructor and destructor of [eventHandler] pass [this], a pointer,
    where [subscribe] and [unsubscribe] take a reference.  No program
    containing a broadcast or a handler compiles, so there is no behaviour
    to model. *)

From Stdlib Require Import ZArith List Bool Lia.
From Stdlib Require Import Strings.Byte.
From stdpp Require Import base option list relations gmap.

Local Open Scope Z_scope.

(* ===================================================================== *)
(** * snailviewer/uid.hpp *)
(* ===================================================================== *)

Module Uid.

(** A C [char]: one byte. *)
Definition char : Type := byte.

(** [enum class uidType : char].  The underlying type is fixed, so every
    [char] is a value of the enumeration; the enumerators are the codes
    0 to 4 in declaration order. *)
Definition uidType : Type := char.

Inductive uidKind : Type := module_kind | event | widget | keybind | color.

Definition uidType_of (k : uidKind) : uidType :=
  match k with
  | module_kind => x00
  | event => x01
  | widget => x02
  | keybind => x03
  | color => x04
  end.

Definition char3 : Type := char * char * char.
Definition char5 : Type := char * char * char * char * char.
Definition char7 : Type := char * char * char * char * char * char * char.

(** [struct uid]: [char module[5]; char author[3]; uidType type; char name[7]],
    sixteen bytes without padding ([static_assert(sizeof(uid) == 16)]). *)
Record uid : Type := mk_uid {
  module : char5;
  author : char3;
  type : uidType;
  name : char7
}.

(** [bool hasType(uidType expectedType)]. *)
Definition hasType (u : uid) (expectedType : uidType) : bool :=
  Byte.eqb (type u) expectedType.

(** [constexpr uid null(uidType type)]. *)
Definition null (t : uidType) : uid :=
  mk_uid (x00, x00, x00, x00, x00) (x00, x00, x00) t
         (x00, x00, x00, x00, x00, x00, x00).

(** The object representation: the sixteen bytes in address order. *)
Definition bytes (u : uid) : list char :=
  let '(m0, m1, m2, m3, m4) := module u in
  let '(a0, a1, a2) := author u in
  let '(n0, n1, n2, n3, n4, n5, n6) := name u in
  [m0; m1; m2; m3; m4; a0; a1; a2; type u; n0; n1; n2; n3; n4; n5; n6].

(** Byte order of the host; the header reads the struct through
    [const long*], so the words depend on it. *)
Inductive byte_order : Type := little_endian | big_endian.

Definition char_val (c : char) : Z := Z.of_N (Byte.to_N c).

(** Unsigned value of a byte string, least significant byte first. *)
Fixpoint unsigned_le (bs : list char) : Z :=
  match bs with
  | [] => 0
  | b :: rest => char_val b + 256 * unsigned_le rest
  end.

(** Two's complement reading of a 64-bit pattern as a [long] (LP64). *)
Definition to_long (u : Z) : Z := if u <? 2 ^ 63 then u else u - 2 ^ 64.

Section Words.
Variable order : byte_order.

Definition load_long (bs : list char) : Z :=
  to_long (unsigned_le match order with
                       | little_endian => bs
                       | big_endian => rev bs
                       end).

(** [reinterpret_cast<const long*>(&id)[i]]. *)
Definition word (u : uid) (i : nat) : Z :=
  load_long (firstn 8 (skipn (8 * i) (bytes u))).

(** [bool operator<(const uid& opponent) const]. *)
Definition lt (a b : uid) : bool :=
  if word a 0 =? word b 0 then word a 1 <? word b 1
  else word a 0 <? word b 0.

(** [bool operator==(const uid& opponent) const]. *)
Definition eq (a b : uid) : bool :=
  (word a 0 =? word b 0) && (word a 1 =? word b 1).

(** [std::hash<uid>::operator()]: [(size_t)(v[0] ^ v[1])]. *)
Definition hash (id : uid) : Z :=
  Z.lxor (word id 0) (word id 1) mod 2 ^ 64.
End Words.

(** The value of a byte read as a two's complement number. *)
Definition signed_val (c : char) : Z :=
  if char_val c <? 128 then char_val c else char_val c - 256.

(** The byte of the struct that is the most significant byte of the first
    [long]: [author[2]] on a little-endian host, [module[0]] on a
    big-endian one. *)
Definition top_byte (order : byte_order) (u : uid) : char :=
  match order with
  | little_endian => let '(_, _, a2) := author u in a2
  | big_endian => let '(m0, _, _, _, _) := module u in m0
  end.

(** The id whose first eight bytes are the last eight of [u] and whose
    last eight are the first eight of [u]. *)
Definition swap_halves (u : uid) : uid :=
  let '(m0, m1, m2, m3, m4) := module u in
  let '(a0, a1, a2) := author u in
  let '(n0, n1, n2, n3, n4, n5, n6) := name u in
  mk_uid (type u, n0, n1, n2, n3) (n4, n5, n6) m0
         (m1, m2, m3, m4, a0, a1, a2).

End Uid.

(* ===================================================================== *)
(** * snailviewer/liveness.hpp and snailviewer/liveness_pthread.cpp *)
(* ===================================================================== *)

Module Liveness.

(** A [void*]; the null pointer is address zero. *)
Definition pointer : Type := N.
Definition nullptr : pointer := 0%N.

(** Contextual conversion of a pointer to [bool], as in [if(ptr)]. *)
Definition is_set (p : pointer) : bool := negb (N.eqb p nullptr).

(** ** The POSIX read-write lock kept in [controlBlock]

    The lock belongs to the thread library, not to this code; it is
    modelled after POSIX.  It is created with default attributes, and POSIX
    leaves open whether a reader is admitted while writers are blocked on
    the lock, so both policies are modelled.  The number of readers is not
    bounded here.  [history] is a ghost record of the calls made on the
    lock, oldest first. *)

Inductive rw_preference : Type := prefer_reader | prefer_writer.

Inductive lock_call : Type :=
| call_tryrdlock (rc : Z)
| call_wrlock
| call_unlock.

Record rwlock : Type := mk_rwlock {
  writer : bool;           (* the write lock is held *)
  readers : nat;           (* number of read locks held *)
  waiting_writers : nat;   (* threads blocked in [pthread_rwlock_wrlock] *)
  history : list lock_call
}.

Definition EBUSY : Z := 16.

(** [pthread_rwlock_init(&lock, NULL)] on success. *)
Definition rwlock_init : rwlock := mk_rwlock false 0 0 [].

(** Whether [pthread_rwlock_rdlock] would block the caller. *)
Definition rdlock_would_block (pref : rw_preference) (l : rwlock) : bool :=
  writer l ||
  match pref with
  | prefer_reader => false
  | prefer_writer => negb (Nat.eqb (waiting_writers l) 0)
  end.

(** [pthread_rwlock_tryrdlock]: the return code and the lock afterwards. *)
Definition pthread_rwlock_tryrdlock (pref : rw_preference) (l : rwlock)
  : Z * rwlock :=
  if rdlock_would_block pref l
  then (EBUSY, mk_rwlock (writer l) (readers l) (waiting_writers l)
                         (history l ++ [call_tryrdlock EBUSY]))
  else (0, mk_rwlock (writer l) (S (readers l)) (waiting_writers l)
                     (history l ++ [call_tryrdlock 0])).

(** [pthread_rwlock_wrlock] in two atomic parts: the caller joins the
    blocked writers, and is granted the lock once nobody holds it. *)
Definition wrlock_enqueue (l : rwlock) : rwlock :=
  mk_rwlock (writer l) (readers l) (S (waiting_writers l))
            (history l ++ [call_wrlock]).

Definition wrlock_grant (l : rwlock) : option rwlock :=
  if negb (writer l) && Nat.eqb (readers l) 0
     && negb (Nat.eqb (waiting_writers l) 0)
  then Some (mk_rwlock true (readers l) (Nat.pred (waiting_writers l))
                       (history l))
  else None.

(** The whole call; [None] when the caller stays blocked. *)
Definition pthread_rwlock_wrlock (l : rwlock) : option rwlock :=
  wrlock_grant (wrlock_enqueue l).

(** [pthread_rwlock_unlock]: gives up the write lock when it is held, one
    read lock otherwise.  (Unlocking a lock nobody holds is undefined in
    POSIX; here it changes no count.) *)
Definition pthread_rwlock_unlock (l : rwlock) : rwlock :=
  if writer l
  then mk_rwlock false (readers l) (waiting_writers l)
                 (history l ++ [call_unlock])
  else mk_rwlock false (Nat.pred (readers l)) (waiting_writers l)
                 (history l ++ [call_unlock]).

(** Two lock states with the same holders and the same blocked writers. *)
Definition same_counts (l l' : rwlock) : Prop :=
  writer l' = writer l /\ readers l' = readers l
  /\ waiting_writers l' = waiting_writers l.

(** ** [class lifeline] *)

Record lifeline : Type := mk_lifeline {
  object : pointer;
  controlBlock : rwlock
}.

Definition with_lock (c : lifeline) (l : rwlock) : lifeline :=
  mk_lifeline (object c) l.

(** [object = nullptr;] *)
Definition clear_object (c : lifeline) : lifeline :=
  mk_lifeline nullptr (controlBlock c).

(** [lifeline::lifeline(void* object)]; [rc] is what [pthread_rwlock_init]
    returns, and [None] stands for the [std::runtime_error] thrown. *)
Definition lifeline_ctor (rc : Z) (obj : pointer) : option lifeline :=
  if negb (rc =? 0) then None else Some (mk_lifeline obj rwlock_init).

(** [void lifeline::waitForDeath()]; [None] when the call stays blocked in
    [pthread_rwlock_wrlock]. *)
Definition waitForDeath (c : lifeline) : option lifeline :=
  match pthread_rwlock_wrlock (controlBlock c) with
  | None => None
  | Some l =>
      let c1 := with_lock c l in
      let c2 := clear_object c1 in
      Some (with_lock c2 (pthread_rwlock_unlock (controlBlock c2)))
  end.

(** [void* lifeline::retain()]. *)
Definition retain (pref : rw_preference) (c : lifeline) : pointer * lifeline :=
  let '(rc, l) := pthread_rwlock_tryrdlock pref (controlBlock c) in
  if negb (rc =? 0) then (nullptr, with_lock c l)
  else (object c, with_lock c l).

(** [void lifeline::release()]. *)
Definition release (c : lifeline) : lifeline :=
  with_lock c (pthread_rwlock_unlock (controlBlock c)).

(** ** Atomic accesses to one lifeline

    What a thread inside one of the three methods does to the lifeline in
    one indivisible step.  [None]: the access cannot happen in this state
    (the thread stays blocked). *)

Inductive access : Type :=
| acc_tryrdlock      (* retain: pthread_rwlock_tryrdlock *)
| acc_unlock         (* release, and the end of waitForDeath *)
| acc_wrlock_enqueue (* waitForDeath: entering pthread_rwlock_wrlock *)
| acc_wrlock_grant   (* waitForDeath: pthread_rwlock_wrlock returns *)
| acc_clear.         (* waitForDeath: object = nullptr *)

Definition perform (pref : rw_preference) (a : access) (c : lifeline)
  : option lifeline :=
  match a with
  | acc_tryrdlock =>
      Some (with_lock c (snd (pthread_rwlock_tryrdlock pref (controlBlock c))))
  | acc_unlock => Some (with_lock c (pthread_rwlock_unlock (controlBlock c)))
  | acc_wrlock_enqueue => Some (with_lock c (wrlock_enqueue (controlBlock c)))
  | acc_wrlock_grant =>
      match wrlock_grant (controlBlock c) with
      | Some l => Some (with_lock c l)
      | None => None
      end
  | acc_clear => Some (clear_object c)
  end.

Fixpoint perform_all (pref : rw_preference) (acs : list access) (c : lifeline)
  : option lifeline :=
  match acs with
  | [] => Some c
  | a :: rest =>
      match perform pref a c with
      | Some c' => perform_all pref rest c'
      | None => None
      end
  end.

(** ** The handles

    A [std::shared_ptr<lifeline>] is an optional address into the store of
    heap-allocated lifelines.  A lifeline stays allocated while a handle
    refers to it, so a lookup through a handle finds it; the branches for
    a missing lifeline are unreachable and leave the store alone. *)

Definition loc : Type := positive.
Definition shared_ptr : Type := option loc.
Abbreviation store := (gmap positive lifeline).

(** [life -> retain()] *)
Definition retain_at (pref : rw_preference) (l : loc) (w : store)
  : pointer * store :=
  match w !! l with
  | Some c => let '(p, c') := retain pref c in (p, <[l := c']> w)
  | None => (nullptr, w)
  end.

(** [life -> release()] *)
Definition release_at (l : loc) (w : store) : store :=
  match w !! l with
  | Some c => <[l := release c]> w
  | None => w
  end.

(** [life -> waitForDeath()] *)
Definition waitForDeath_at (l : loc) (w : store) : option store :=
  match w !! l with
  | Some c =>
      match waitForDeath c with
      | Some c' => Some (<[l := c']> w)
      | None => None
      end
  | None => Some w
  end.

(** *** [living_ptr<objectType>] *)

Record living_ptr : Type := mk_living { living_life : shared_ptr }.

(** [living_ptr(objectType* thiz): life(new lifeline(thiz))].  [allocated]
    tells whether the allocations succeed ([operator new] for the lifeline
    and the control block of the [shared_ptr]); [None] stands for the
    exception that leaves the constructor, [std::bad_alloc] or the
    [std::runtime_error] of the lifeline constructor.  In each of these
    cases nothing stays allocated. *)
Definition living_ptr_ctor (allocated : bool) (rc : Z) (thiz : pointer)
  (w : store) : option (living_ptr * store) :=
  if allocated then
    match lifeline_ctor rc thiz with
    | Some c => let l := fresh (dom w) in
                Some (mk_living (Some l), <[l := c]> w)
    | None => None
    end
  else None.

(** [living_ptr() noexcept: life()] *)
Definition living_ptr_default : living_ptr := mk_living None.

(** [~living_ptr()]: [if(life) life -> waitForDeath();]. [None] when the
    destructor stays blocked. *)
Definition living_ptr_dtor (p : living_ptr) (w : store) : option store :=
  match living_life p with
  | Some l => waitForDeath_at l w
  | None => Some w
  end.

(** [living_ptr(living_ptr&& b)]: the new handle and [b] afterwards. *)
Definition living_ptr_move (b : living_ptr) : living_ptr * living_ptr :=
  let this := mk_living None in
  (mk_living (living_life b), mk_living (living_life this)).

(** [living_ptr& operator=(living_ptr b)], called as [a = std::move(x)]:
    [a] and [x] afterwards, and the store once the parameter [b] has been
    destroyed. *)
Definition living_ptr_assign (a x : living_ptr) (w : store)
  : option (living_ptr * living_ptr * store) :=
  let '(b, x') := living_ptr_move x in
  let a' := mk_living (living_life b) in
  let b' := mk_living (living_life a) in
  match living_ptr_dtor b' w with
  | Some w' => Some (a', x', w')
  | None => None
  end.

(** *** [liveness_ptr<polymorphicType>] *)

Record liveness_ptr : Type := mk_liveness { liveness_life : shared_ptr }.

(** [explicit liveness_ptr(const living_ptr<objectType>& l): life(l.life)] *)
Definition liveness_of_living (l : living_ptr) : liveness_ptr :=
  mk_liveness (living_life l).

(** [explicit liveness_ptr(const liveness_ptr<objectType>& lp):
    life(lp.life)] *)
Definition liveness_of_liveness (lp : liveness_ptr) : liveness_ptr :=
  mk_liveness (liveness_life lp).

(** *** [holder_ptr<objectType>] *)

Record holder_ptr : Type := mk_holder {
  holder_life : shared_ptr;
  ptr : pointer
}.

(** [holder_ptr(const liveness_ptr<objectType>& lp): life(lp.life),
    ptr(nullptr) { if(life) ptr = life -> retain(); }] *)
Definition holder_ptr_ctor (pref : rw_preference) (lp : liveness_ptr)
  (w : store) : holder_ptr * store :=
  let this := mk_holder (liveness_life lp) nullptr in
  match holder_life this with
  | Some l => let '(p, w') := retain_at pref l w in
              (mk_holder (holder_life this) p, w')
  | None => (this, w)
  end.

(** [~holder_ptr()]: [if(life) if(ptr) life -> release();] *)
Definition holder_ptr_dtor (h : holder_ptr) (w : store) : store :=
  match holder_life h with
  | Some l => if is_set (ptr h) then release_at l w else w
  | None => w
  end.

(** [holder_ptr(holder_ptr&& hp) noexcept { swap(life, hp.life); }].  The
    member [ptr] has no initializer here: it starts with an indeterminate
    value [junk] and is not assigned.  Returns the new holder and [hp]
    afterwards. *)
Definition holder_ptr_move (junk : pointer) (hp : holder_ptr)
  : holder_ptr * holder_ptr :=
  let this := mk_holder None junk in
  (mk_holder (holder_life hp) (ptr this),
   mk_holder (holder_life this) (ptr hp)).

(** [holder_ptr& operator=(holder_ptr hp)], called as [a = std::move(x)]:
    the parameter is move-constructed from [x], its [life] is swapped with
    [a]'s, and it is destroyed on return.  Returns [a] and [x] afterwards
    and the store. *)
Definition holder_ptr_assign (junk : pointer) (a x : holder_ptr) (w : store)
  : holder_ptr * holder_ptr * store :=
  let '(hp, x') := holder_ptr_move junk x in
  let a' := mk_holder (holder_life hp) (ptr a) in
  let hp' := mk_holder (holder_life a) (ptr hp) in
  (a', x', holder_ptr_dtor hp' w).

(** [operator objectType*() const] *)
Definition to_pointer (h : holder_ptr) : pointer := ptr h.

(** ** One lifeline shared by its owner and any number of guards

    The owner runs [~living_ptr], that is [waitForDeath], once; guards are
    constructed from liveness pointers and destroyed, on any threads.  A
    state records the lifeline, where the owner stands inside
    [waitForDeath], and the guards under construction or in scope.

    This relation follows a guard from its acquiring constructor to its
    destructor and nothing else: it has no move of a guard and no move of
    the owner.  [program_step] further down has them. *)

Inductive owner_pc : Type :=
| owner_alive     (* the living pointer has not been destroyed yet *)
| owner_waiting   (* inside pthread_rwlock_wrlock *)
| owner_locked    (* pthread_rwlock_wrlock has returned *)
| owner_cleared   (* object = nullptr has been executed *)
| owner_dead.     (* pthread_rwlock_unlock done: waitForDeath has returned *)

(** Where a guard stands: inside [retain], with [tryrdlock] returned 0 and
    [return object] not yet executed; or constructed, with member [ptr]
    equal to [p]. *)
Inductive guard_pc : Type :=
| guard_retaining
| guard_in_scope (p : pointer).

Record system : Type := mk_system {
  cell : lifeline;
  owner : owner_pc;
  guards : list guard_pc
}.

Inductive step (pref : rw_preference) : system -> system -> Prop :=
| step_wrlock_enter c gs :
    step pref (mk_system c owner_alive gs)
         (mk_system (with_lock c (wrlock_enqueue (controlBlock c)))
                    owner_waiting gs)
| step_wrlock_return c l gs :
    wrlock_grant (controlBlock c) = Some l ->
    step pref (mk_system c owner_waiting gs)
         (mk_system (with_lock c l) owner_locked gs)
| step_clear c gs :
    step pref (mk_system c owner_locked gs)
         (mk_system (clear_object c) owner_cleared gs)
| step_unlock c gs :
    step pref (mk_system c owner_cleared gs)
         (mk_system (with_lock c (pthread_rwlock_unlock (controlBlock c)))
                    owner_dead gs)
| step_tryrdlock_granted c o gs l :
    pthread_rwlock_tryrdlock pref (controlBlock c) = (0, l) ->
    step pref (mk_system c o gs)
         (mk_system (with_lock c l) o (guard_retaining :: gs))
| step_tryrdlock_refused c o gs rc l :
    pthread_rwlock_tryrdlock pref (controlBlock c) = (rc, l) ->
    rc <> 0 ->
    step pref (mk_system c o gs)
         (mk_system (with_lock c l) o (guard_in_scope nullptr :: gs))
| step_retain_return c o gs1 gs2 :
    step pref (mk_system c o (gs1 ++ guard_retaining :: gs2))
         (mk_system c o (gs1 ++ guard_in_scope (object c) :: gs2))
| step_guard_destroy c o gs1 p gs2 :
    step pref (mk_system c o (gs1 ++ guard_in_scope p :: gs2))
         (mk_system (if is_set p then release c else c) o (gs1 ++ gs2)).

(** The state right after [living_ptr<T>(this)]. *)
Definition initial (obj : pointer) : system :=
  mk_system (mk_lifeline obj rwlock_init) owner_alive [].

Definition reachable (pref : rw_preference) (obj : pointer) (s : system)
  : Prop :=
  rtc (step pref) (initial obj) s.

(** Guards that hold a read lock they are going to give back. *)
Fixpoint holders (gs : list guard_pc) : nat :=
  match gs with
  | [] => 0
  | guard_retaining :: rest => S (holders rest)
  | guard_in_scope p :: rest =>
      if is_set p then S (holders rest) else holders rest
  end.

(** Guards in scope whose pointer is not null. *)
Fixpoint users (gs : list guard_pc) : nat :=
  match gs with
  | [] => 0
  | guard_retaining :: rest => users rest
  | guard_in_scope p :: rest =>
      if is_set p then S (users rest) else users rest
  end.

(** What holds in every state the owner and the guards can reach from
    [initial obj]. *)
Definition after_clear (o : owner_pc) : bool :=
  match o with
  | owner_cleared | owner_dead => true
  | _ => false
  end.

Definition holds_write_lock (o : owner_pc) : bool :=
  match o with
  | owner_locked | owner_cleared => true
  | _ => false
  end.

Definition pointer_from (obj : pointer) (g : guard_pc) : Prop :=
  match g with
  | guard_retaining => True
  | guard_in_scope p => p = nullptr \/ p = obj
  end.

Record invariant (obj : pointer) (s : system) : Prop := mk_invariant {
  inv_object :
    object (cell s) = if after_clear (owner s) then nullptr else obj;
  inv_writer : writer (controlBlock (cell s)) = holds_write_lock (owner s);
  inv_exclusive :
    writer (controlBlock (cell s)) = true ->
    readers (controlBlock (cell s)) = 0%nat;
  inv_holders : (holders (guards s) <= readers (controlBlock (cell s)))%nat;
  inv_users : after_clear (owner s) = true -> users (guards s) = 0%nat;
  inv_pointers : Forall (pointer_from obj) (guards s)
}.

(** Constructing [n] guards from one liveness pointer, one after the
    other, and destroying a list of guards. *)
Fixpoint acquire_many (pref : rw_preference) (lp : liveness_ptr) (n : nat)
  (w : store) : list holder_ptr * store :=
  match n with
  | O => ([], w)
  | S k =>
      let '(h, w1) := holder_ptr_ctor pref lp w in
      let '(hs, w2) := acquire_many pref lp k w1 in
      (h :: hs, w2)
  end.

Fixpoint destroy_all (hs : list holder_ptr) (w : store) : store :=
  match hs with
  | [] => w
  | h :: rest => destroy_all rest (holder_ptr_dtor h w)
  end.

(** The lock's books in a state of the interleaving: the owner is the only
    writer that ever waits, and as long as a non-null object has not been
    cleared every read lock held belongs to a guard. *)
Record accounted (obj : pointer) (s : system) : Prop := mk_accounted {
  acc_waiting :
    waiting_writers (controlBlock (cell s))
    = match owner s with owner_waiting => 1%nat | _ => 0%nat end;
  acc_readers :
    obj <> nullptr -> after_clear (owner s) = false ->
    readers (controlBlock (cell s)) = holders (guards s)
}.

(** ** The program on one lifeline, moves included

    Besides what [step] has, a guard can be move-constructed from another
    or assigned from another, and the living pointer can be moved together
    with its object.  A guard in scope is now the [holder_ptr] object
    itself, with its members [life] and [ptr]; the lifeline is the one at
    [the_lifeline]; and a state records where the object that owns the
    lifeline is at present. *)

Definition the_lifeline : loc := 1%positive.

Inductive guard_obj : Type :=
| in_retain                (* inside retain: tryrdlock returned 0 *)
| holder (h : holder_ptr). (* a holder_ptr in scope *)

Record program : Type := mk_program {
  p_cell : lifeline;
  p_owner : owner_pc;
  p_guards : list guard_obj;
  p_object : pointer
}.

Inductive action : Type :=
| do_wrlock_enter
| do_wrlock_return
| do_clear
| do_unlock
| do_tryrdlock
| do_retain_return
| do_destroy
| do_move (junk : pointer)
| do_assign (junk : pointer)
| do_move_owner (to : pointer).

Definition is_move (a : action) : bool :=
  match a with
  | do_move _ | do_assign _ | do_move_owner _ => true
  | _ => false
  end.

Inductive program_step (pref : rw_preference)
  : action -> program -> program -> Prop :=
| pstep_wrlock_enter c gs where_ :
    program_step pref do_wrlock_enter
      (mk_program c owner_alive gs where_)
      (mk_program (with_lock c (wrlock_enqueue (controlBlock c)))
                  owner_waiting gs where_)
| pstep_wrlock_return c l gs where_ :
    wrlock_grant (controlBlock c) = Some l ->
    program_step pref do_wrlock_return
      (mk_program c owner_waiting gs where_)
      (mk_program (with_lock c l) owner_locked gs where_)
| pstep_clear c gs where_ :
    program_step pref do_clear
      (mk_program c owner_locked gs where_)
      (mk_program (clear_object c) owner_cleared gs where_)
| pstep_unlock c gs where_ :
    program_step pref do_unlock
      (mk_program c owner_cleared gs where_)
      (mk_program (with_lock c (pthread_rwlock_unlock (controlBlock c)))
                  owner_dead gs where_)
| pstep_tryrdlock_granted c o gs where_ l :
    pthread_rwlock_tryrdlock pref (controlBlock c) = (0, l) ->
    program_step pref do_tryrdlock
      (mk_program c o gs where_)
      (mk_program (with_lock c l) o (in_retain :: gs) where_)
| pstep_tryrdlock_refused c o gs where_ rc l :
    pthread_rwlock_tryrdlock pref (controlBlock c) = (rc, l) ->
    rc <> 0 ->
    program_step pref do_tryrdlock
      (mk_program c o gs where_)
      (mk_program (with_lock c l) o
         (holder (mk_holder (Some the_lifeline) nullptr) :: gs) where_)
| pstep_retain_return c o gs1 gs2 where_ :
    program_step pref do_retain_return
      (mk_program c o (gs1 ++ in_retain :: gs2) where_)
      (mk_program c o
         (gs1 ++ holder (mk_holder (Some the_lifeline) (object c)) :: gs2)
         where_)
| pstep_destroy c o gs1 h gs2 where_ c' :
    (* ~holder_ptr *)
    holder_ptr_dtor h {[the_lifeline := c]} !! the_lifeline = Some c' ->
    program_step pref do_destroy
      (mk_program c o (gs1 ++ holder h :: gs2) where_)
      (mk_program c' o (gs1 ++ gs2) where_)
| pstep_move c o gs1 h gs2 where_ junk :
    (* holder_ptr fresh(std::move(h)) *)
    program_step pref (do_move junk)
      (mk_program c o (gs1 ++ holder h :: gs2) where_)
      (mk_program c o
         (gs1 ++ holder (fst (holder_ptr_move junk h))
              :: holder (snd (holder_ptr_move junk h)) :: gs2) where_)
| pstep_assign_later c o gs1 a gs2 x gs3 where_ junk a' x' w' c' :
    (* a = std::move(x), a standing before x in the list *)
    holder_ptr_assign junk a x {[the_lifeline := c]} = (a', x', w') ->
    w' !! the_lifeline = Some c' ->
    program_step pref (do_assign junk)
      (mk_program c o (gs1 ++ holder a :: gs2 ++ holder x :: gs3) where_)
      (mk_program c' o (gs1 ++ holder a' :: gs2 ++ holder x' :: gs3) where_)
| pstep_assign_earlier c o gs1 x gs2 a gs3 where_ junk a' x' w' c' :
    (* a = std::move(x), x standing before a in the list *)
    holder_ptr_assign junk a x {[the_lifeline := c]} = (a', x', w') ->
    w' !! the_lifeline = Some c' ->
    program_step pref (do_assign junk)
      (mk_program c o (gs1 ++ holder x :: gs2 ++ holder a :: gs3) where_)
      (mk_program c' o (gs1 ++ holder x' :: gs2 ++ holder a' :: gs3) where_)
| pstep_move_owner c gs where_ to :
    (* the object, with its living_ptr, is moved to address [to] *)
    program_step pref (do_move_owner to)
      (mk_program c owner_alive gs where_)
      (mk_program c owner_alive gs to).

(** The state right after [living_ptr<T>(this)], the object being at
    [obj]. *)
Definition program_initial (obj : pointer) : program :=
  mk_program (mk_lifeline obj rwlock_init) owner_alive [] obj.

(** [run pref tr t t']: the actions [tr], in this order, lead from [t] to
    [t']. *)
Inductive run (pref : rw_preference)
  : list action -> program -> program -> Prop :=
| run_done t : run pref [] t t
| run_step a tr t1 t2 t3 :
    program_step pref a t1 t2 -> run pref tr t2 t3 ->
    run pref (a :: tr) t1 t3.

(** No guard and no owner is moved. *)
Definition no_moves (tr : list action) : Prop :=
  Forall (fun a => is_move a = false) tr.

(** A state of [step] as a state of the program. *)
Definition as_guard_obj (g : guard_pc) : guard_obj :=
  match g with
  | guard_retaining => in_retain
  | guard_in_scope p => holder (mk_holder (Some the_lifeline) p)
  end.

Definition as_program (obj : pointer) (s : system) : program :=
  mk_program (cell s) (owner s) (map as_guard_obj (guards s)) obj.

(** Guards that hold a read lock their destructor is going to give back. *)
Fixpoint lock_holders (gs : list guard_obj) : nat :=
  match gs with
  | [] => 0
  | in_retain :: rest => S (lock_holders rest)
  | holder h :: rest =>
      match holder_life h with
      | Some _ => if is_set (ptr h) then S (lock_holders rest)
                  else lock_holders rest
      | None => lock_holders rest
      end
  end.

End Liveness.

(* ===================================================================== *)
(** * Sample values *)
(* ===================================================================== *)

Module Samples.
Import Liveness.

(** An id in the style of the header's examples. *)
Definition snail_event (n : Uid.char) : Uid.uid :=
  Uid.mk_uid ("S", "N", "A", "I", "L")%byte ("F", "M", "L")%byte
             (Uid.uidType_of Uid.event)
             ("F", "P", "N", "T", "I", "D", n)%byte.

(** A lifeline for an object at address 7, just created. *)
Definition fresh_cell : lifeline := mk_lifeline 7%N rwlock_init.

(** The same lifeline after the owner's [waitForDeath]. *)
Definition dead_cell : lifeline :=
  mk_lifeline nullptr (mk_rwlock false 0 0 [call_wrlock; call_unlock]).

(** The owner gone and no guard; then one guard constructed. *)
Definition dead_system : system := mk_system dead_cell owner_dead [].

Definition later_system : system :=
  mk_system
    (mk_lifeline nullptr
       (mk_rwlock false 1 0 [call_wrlock; call_unlock; call_tryrdlock 0]))
    owner_dead [guard_in_scope nullptr].

(** The lifeline while the owner holds the write lock. *)
Definition dying_cell : lifeline :=
  mk_lifeline 7%N (mk_rwlock true 0 0 [call_wrlock]).

Definition dying_store : gmap positive lifeline := {[1%positive := dying_cell]}.

(** An observer of the lifeline stored at address 1. *)
Definition observer : liveness_ptr := mk_liveness (Some 1%positive).

(** One guard in scope, and the owner blocked inside [waitForDeath]. *)
Definition pending_system : system :=
  mk_system
    (mk_lifeline 7%N (mk_rwlock false 1 1 [call_tryrdlock 0; call_wrlock]))
    owner_waiting [guard_in_scope 7%N].

(** Two ids that differ only in [author[2]] and in [module[0]]. *)
Definition low_author : Uid.uid :=
  Uid.mk_uid ("z", "N", "A", "I", "L")%byte ("F", "M", "A")%byte
             (Uid.uidType_of Uid.event)
             ("F", "P", "N", "T", "I", "D", "X")%byte.

Definition high_author : Uid.uid :=
  Uid.mk_uid ("A", "N", "A", "I", "L")%byte ("F", "M", "B")%byte
             (Uid.uidType_of Uid.event)
             ("F", "P", "N", "T", "I", "D", "X")%byte.

(** The owner holding the write lock, before and after [object = nullptr]. *)
Definition locked_system : system := mk_system dying_cell owner_locked [].

(** The owner alive, one guard inside [retain] and one in scope. *)
Definition busy_system : system :=
  mk_system
    (mk_lifeline 7%N
       (mk_rwlock false 2 0 [call_tryrdlock 0; call_tryrdlock 0]))
    owner_alive [guard_retaining; guard_in_scope 7%N].

(** A store with one lifeline, whose lock two guards hold. *)
Definition shared_store : gmap positive lifeline :=
  {[1%positive :=
      mk_lifeline 7%N
        (mk_rwlock false 2 0 [call_tryrdlock 0; call_tryrdlock 0])]}.

(** A guard acquired, moved into a second guard whose [ptr] starts out as
    [junk], the second guard destroyed, the owner torn down: what is left
    when [junk] is not null. *)
Definition moved_run (junk : pointer) : list action :=
  [do_tryrdlock; do_retain_return; do_move junk; do_destroy;
   do_wrlock_enter; do_wrlock_return; do_clear; do_unlock].

Definition after_moved_run : program :=
  mk_program
    (mk_lifeline nullptr
       (mk_rwlock false 0 0
          [call_tryrdlock 0; call_unlock; call_wrlock; call_unlock]))
    owner_dead [holder (mk_holder None 7%N)] 7%N.

(** The object moved from address 7 to address 9, then a guard acquired. *)
Definition after_owner_move : program :=
  mk_program (mk_lifeline 7%N (mk_rwlock false 1 0 [call_tryrdlock 0]))
    owner_alive [holder (mk_holder (Some the_lifeline) 7%N)] 9%N.

(** [pending_system] and [busy_system] as runs of the program. *)
Definition pending_run : list action :=
  [do_tryrdlock; do_retain_return; do_wrlock_enter].

Definition busy_run : list action :=
  [do_tryrdlock; do_retain_return; do_tryrdlock].

Definition locked_run : list action := [do_wrlock_enter; do_wrlock_return].

End Samples.

(* ===================================================================== *)
(** * Properties of the unique ids *)
(* ===================================================================== *)


Lemma char_val_range (c : Uid.char) : 0 <= Uid.char_val c < 256.
Proof.
  unfold Uid.char_val. pose proof (Byte.to_N_bounded c). lia.
Qed.

Lemma char_val_inj (c d : Uid.char) : Uid.char_val c = Uid.char_val d -> c = d.
Proof.
  unfold Uid.char_val. intros H. apply N2Z.inj in H.
  pose proof (Byte.of_to_N c) as Hc. pose proof (Byte.of_to_N d) as Hd.
  rewrite H in Hc. congruence.
Qed.

Lemma unsigned_le_range (bs : list Uid.char) :
  0 <= Uid.unsigned_le bs < 256 ^ Z.of_nat (length bs).
Proof.
  induction bs as [|b bs IH]; simpl Uid.unsigned_le.
  - simpl. lia.
  - replace (Z.of_nat (length (b :: bs))) with (Z.succ (Z.of_nat (length bs)))
      by (simpl length; lia).
    rewrite Z.pow_succ_r by lia.
    pose proof (char_val_range b). lia.
Qed.

Lemma unsigned_le_inj (bs cs : list Uid.char) :
  length bs = length cs -> Uid.unsigned_le bs = Uid.unsigned_le cs -> bs = cs.
Proof.
  revert cs. induction bs as [|b bs IH]; intros [|c cs] Hlen Heq;
    simpl in Hlen; try discriminate; [reflexivity|].
  simpl Uid.unsigned_le in Heq.
  pose proof (char_val_range b). pose proof (char_val_range c).
  assert (Uid.char_val b = Uid.char_val c
          /\ Uid.unsigned_le bs = Uid.unsigned_le cs) as [Hb Hr] by lia.
  f_equal; [now apply char_val_inj | apply IH; [lia | exact Hr]].
Qed.

Lemma to_long_inj (u v : Z) :
  0 <= u < 2 ^ 64 -> 0 <= v < 2 ^ 64 -> Uid.to_long u = Uid.to_long v -> u = v.
Proof.
  unfold Uid.to_long. intros Hu Hv.
  destruct (Z.ltb_spec u (2 ^ 63)), (Z.ltb_spec v (2 ^ 63)); lia.
Qed.

Lemma load_long_inj (order : Uid.byte_order) (bs cs : list Uid.char) :
  length bs = 8%nat -> length cs = 8%nat ->
  Uid.load_long order bs = Uid.load_long order cs -> bs = cs.
Proof.
  intros Hb Hc H. unfold Uid.load_long in H.
  assert (Hrange : forall l : list Uid.char, length l = 8%nat ->
                     0 <= Uid.unsigned_le l < 2 ^ 64).
  { intros l Hl. pose proof (unsigned_le_range l) as R. rewrite Hl in R.
    exact R. }
  destruct order.
  - apply unsigned_le_inj; [congruence|].
    apply to_long_inj; auto.
  - assert (rev bs = rev cs) as Hrev.
    { apply unsigned_le_inj; [rewrite !length_rev; congruence|].
      apply to_long_inj; [apply Hrange; rewrite length_rev; exact Hb
                         |apply Hrange; rewrite length_rev; exact Hc|exact H]. }
    rewrite <- (rev_involutive bs), <- (rev_involutive cs). now rewrite Hrev.
Qed.

Lemma bytes_inj (a b : Uid.uid) : Uid.bytes a = Uid.bytes b -> a = b.
Proof.
  destruct a as [[[[[m0 m1] m2] m3] m4] [[a0 a1] a2] t
                 [[[[[[n0 n1] n2] n3] n4] n5] n6]].
  destruct b as [[[[[m0' m1'] m2'] m3'] m4'] [[a0' a1'] a2'] t'
                 [[[[[[n0' n1'] n2'] n3'] n4'] n5'] n6']].
  unfold Uid.bytes; simpl. intros H.
  injection H as -> -> -> -> -> -> -> -> -> -> -> -> -> -> -> ->.
  reflexivity.
Qed.

Lemma bytes_length (a : Uid.uid) : length (Uid.bytes a) = 16%nat.
Proof.
  destruct a as [[[[[m0 m1] m2] m3] m4] [[a0 a1] a2] t
                 [[[[[[n0 n1] n2] n3] n4] n5] n6]].
  reflexivity.
Qed.

Lemma bytes_split (a : Uid.uid) :
  Uid.bytes a = firstn 8 (skipn (8 * 0) (Uid.bytes a))
            ++ firstn 8 (skipn (8 * 1) (Uid.bytes a)).
Proof.
  destruct a as [[[[[m0 m1] m2] m3] m4] [[a0 a1] a2] t
                 [[[[[[n0 n1] n2] n3] n4] n5] n6]].
  reflexivity.
Qed.

Lemma word_bytes_length (a : Uid.uid) (i : nat) :
  (i < 2)%nat -> length (firstn 8 (skipn (8 * i) (Uid.bytes a))) = 8%nat.
Proof.
  intros Hi. rewrite length_firstn, length_skipn, bytes_length. lia.
Qed.

Lemma words_inj (order : Uid.byte_order) (a b : Uid.uid) :
  Uid.word order a 0 = Uid.word order b 0 ->
  Uid.word order a 1 = Uid.word order b 1 -> a = b.
Proof.
  unfold Uid.word. intros H0 H1.
  apply load_long_inj in H0; [|apply word_bytes_length; lia ..].
  apply load_long_inj in H1; [|apply word_bytes_length; lia ..].
  apply bytes_inj. rewrite (bytes_split a), (bytes_split b).
  now rewrite H0, H1.
Qed.

Lemma uid_eq_spec (order : Uid.byte_order) (a b : Uid.uid) :
  Uid.eq order a b = true <-> a = b.
Proof.
  unfold Uid.eq. rewrite andb_true_iff, !Z.eqb_eq. split.
  - intros [H0 H1]. eapply words_inj; eassumption.
  - intros ->. split; reflexivity.
Qed.

Lemma uid_lt_spec (order : Uid.byte_order) (a b : Uid.uid) :
  Uid.lt order a b = true <->
  Uid.word order a 0 < Uid.word order b 0
  \/ (Uid.word order a 0 = Uid.word order b 0
      /\ Uid.word order a 1 < Uid.word order b 1).
Proof.
  unfold Uid.lt.
  destruct (Z.eqb_spec (Uid.word order a 0) (Uid.word order b 0)) as [E|N];
    rewrite Z.ltb_lt; lia.
Qed.

(** C6. Two ids that compare equal with [operator==] (both 8-byte words of
    the 16-byte layout equal) have the same hash, the hash being the
    exclusive or of the two words. *)
Theorem uid_eq_hash (order : Uid.byte_order) (a b : Uid.uid) :
  Uid.eq order a b = true ->
  Uid.hash order a = Uid.hash order b.
Proof.
  unfold Uid.eq, Uid.hash. rewrite andb_true_iff, !Z.eqb_eq.
  intros [-> ->]. reflexivity.
Qed.

Lemma uid_eq_hash_witness :
  Uid.eq Uid.little_endian (Samples.snail_event "X"%byte)
         (Samples.snail_event "X"%byte) = true
  /\ Uid.hash Uid.little_endian (Samples.snail_event "X"%byte)
     = Uid.hash Uid.little_endian (Samples.snail_event "X"%byte).
Proof.
  split; [vm_compute; reflexivity|].
  apply (uid_eq_hash Uid.little_endian (Samples.snail_event "X"%byte)
                     (Samples.snail_event "X"%byte)).
  vm_compute; reflexivity.
Defined.

(** C7. [operator<] compares the first 8-byte word and, only when the
    first words are equal, the second one; with [operator==] it is a strict
    total order on the 16-byte values: irreflexive, transitive, and for all
    [a], [b] exactly one of [a < b], [b < a], [a == b] holds, where
    [a == b] holds exactly when the sixteen bytes are the same. *)
Theorem uid_lt_strict_total_order (order : Uid.byte_order) :
  (forall a b, Uid.lt order a b = true <->
      Uid.word order a 0 < Uid.word order b 0
      \/ (Uid.word order a 0 = Uid.word order b 0
          /\ Uid.word order a 1 < Uid.word order b 1))
  /\ (forall a, Uid.lt order a a = false)
  /\ (forall a b c, Uid.lt order a b = true -> Uid.lt order b c = true ->
        Uid.lt order a c = true)
  /\ (forall a b,
        (Uid.lt order a b = true /\ Uid.lt order b a = false
         /\ Uid.eq order a b = false)
        \/ (Uid.lt order a b = false /\ Uid.lt order b a = true
            /\ Uid.eq order a b = false)
        \/ (Uid.lt order a b = false /\ Uid.lt order b a = false
            /\ Uid.eq order a b = true))
  /\ (forall a b, Uid.eq order a b = true <-> Uid.bytes a = Uid.bytes b).
Proof.
  split; [apply uid_lt_spec|]. split; [|split; [|split]].
  - intros a. apply not_true_is_false. rewrite uid_lt_spec. lia.
  - intros a b c. rewrite !uid_lt_spec. lia.
  - intros a b. unfold Uid.lt, Uid.eq.
    destruct (Z.eqb_spec (Uid.word order a 0) (Uid.word order b 0))
      as [E0|N0],
        (Z.eqb_spec (Uid.word order b 0) (Uid.word order a 0))
      as [E0'|N0'];
      try congruence;
    destruct (Z.eqb_spec (Uid.word order a 1) (Uid.word order b 1)) as [E1|N1];
    cbn [andb];
    repeat match goal with
           | |- context [?x <? ?y] => destruct (Z.ltb_spec x y)
           end; try lia; auto.
  - intros a b. rewrite uid_eq_spec. split; [now intros ->|apply bytes_inj].
Qed.

(* ===================================================================== *)
(** * Properties of the lifeline and its handles *)
(* ===================================================================== *)

Import Liveness.

(** ** The methods as sequences of atomic accesses *)

Lemma retain_as_access pref c :
  perform pref acc_tryrdlock c = Some (snd (retain pref c)).
Proof.
  unfold retain, perform.
  destruct (pthread_rwlock_tryrdlock pref (controlBlock c)) as [rc l].
  destruct (negb (rc =? 0)); reflexivity.
Qed.

Lemma release_as_access pref c : perform pref acc_unlock c = Some (release c).
Proof. reflexivity. Qed.

Lemma waitForDeath_as_accesses pref c :
  perform_all pref
    [acc_wrlock_enqueue; acc_wrlock_grant; acc_clear; acc_unlock] c
  = waitForDeath c.
Proof.
  unfold waitForDeath, pthread_rwlock_wrlock. cbn.
  destruct (wrlock_grant (wrlock_enqueue (controlBlock c))); reflexivity.
Qed.

(** ** The stored reference once it is null *)

Lemma perform_keeps_null pref a c c' :
  perform pref a c = Some c' -> object c = nullptr -> object c' = nullptr.
Proof.
  destruct a; cbn; intros H Hnull; try (injection H as <-; assumption).
  - destruct (wrlock_grant (controlBlock c)); [|discriminate].
    injection H as <-. assumption.
  - injection H as <-. reflexivity.
Qed.

Lemma perform_all_keeps_null pref acs :
  forall c c', perform_all pref acs c = Some c' ->
               object c = nullptr -> object c' = nullptr.
Proof.
  induction acs as [|a acs IH]; cbn; intros c c' H Hnull.
  - injection H as <-. assumption.
  - destruct (perform pref a c) as [c1|] eqn:E; [|discriminate].
    eapply IH; [eassumption|]. eapply perform_keeps_null; eassumption.
Qed.

Lemma waitForDeath_clears c c' :
  waitForDeath c = Some c' -> object c' = nullptr.
Proof.
  unfold waitForDeath.
  destruct (pthread_rwlock_wrlock (controlBlock c)); [|discriminate].
  intros H. injection H as <-. reflexivity.
Qed.

Lemma retain_result pref c :
  fst (retain pref c) = nullptr \/ fst (retain pref c) = object c.
Proof.
  unfold retain.
  destruct (pthread_rwlock_tryrdlock pref (controlBlock c)) as [rc l].
  destruct (negb (rc =? 0)); [left|right]; reflexivity.
Qed.

Lemma retain_object pref c : object (snd (retain pref c)) = object c.
Proof.
  unfold retain.
  destruct (pthread_rwlock_tryrdlock pref (controlBlock c)) as [rc l].
  destruct (negb (rc =? 0)); reflexivity.
Qed.

(** What the acquiring constructor leaves in the member [ptr]. *)
Lemma holder_ptr_ctor_pointer pref lp (w : store) :
  to_pointer (fst (holder_ptr_ctor pref lp w))
  = match liveness_life lp with
    | Some l => match w !! l with
                | Some c => fst (retain pref c)
                | None => nullptr
                end
    | None => nullptr
    end.
Proof.
  unfold holder_ptr_ctor, retain_at; cbn.
  destruct (liveness_life lp) as [l|]; [|reflexivity].
  destruct (w !! l) as [c|]; [|reflexivity].
  destruct (retain pref c); reflexivity.
Qed.

(** ** Acquisition while the lock is busy *)

Lemma tryrdlock_refused pref l :
  rdlock_would_block pref l = true ->
  pthread_rwlock_tryrdlock pref l
  = (EBUSY, mk_rwlock (writer l) (readers l) (waiting_writers l)
                      (history l ++ [call_tryrdlock EBUSY])).
Proof. unfold pthread_rwlock_tryrdlock. now intros ->. Qed.

Lemma tryrdlock_granted pref l :
  rdlock_would_block pref l = false ->
  pthread_rwlock_tryrdlock pref l
  = (0, mk_rwlock (writer l) (S (readers l)) (waiting_writers l)
                  (history l ++ [call_tryrdlock 0])).
Proof. unfold pthread_rwlock_tryrdlock. now intros ->. Qed.

Lemma tryrdlock_history pref l :
  history (snd (pthread_rwlock_tryrdlock pref l))
  = history l ++ [call_tryrdlock (fst (pthread_rwlock_tryrdlock pref l))].
Proof.
  unfold pthread_rwlock_tryrdlock.
  destruct (rdlock_would_block pref l); reflexivity.
Qed.

Lemma holder_ptr_ctor_at pref lp (w : store) l c :
  liveness_life lp = Some l -> w !! l = Some c ->
  holder_ptr_ctor pref lp w
  = (mk_holder (Some l) (fst (retain pref c)),
     <[l := snd (retain pref c)]> w).
Proof.
  intros Hlp Hw. unfold holder_ptr_ctor, retain_at; cbn. rewrite Hlp, Hw.
  destruct (retain pref c); reflexivity.
Qed.

Lemma retain_lock pref c :
  controlBlock (snd (retain pref c))
  = snd (pthread_rwlock_tryrdlock pref (controlBlock c)).
Proof.
  unfold retain.
  destruct (pthread_rwlock_tryrdlock pref (controlBlock c)) as [rc l].
  destruct (negb (rc =? 0)); reflexivity.
Qed.

Lemma retain_refused pref c :
  rdlock_would_block pref (controlBlock c) = true ->
  fst (retain pref c) = nullptr.
Proof.
  intros H. unfold retain. rewrite (tryrdlock_refused _ _ H). reflexivity.
Qed.

(** C3, as the code has it. Constructing a guard makes exactly one call on
    the lock, a [pthread_rwlock_tryrdlock], so it cannot block; and when
    the write lock is held (or, on a lock that prefers writers, a writer is
    blocked on it) the call is refused: the constructor returns normally
    with a guard that converts to a null pointer, the lock's holders are
    unchanged, and destroying the guard makes no call on the lock. *)
Theorem guard_acquisition_fails_fast pref (w : store) l lp c :
  w !! l = Some c ->
  liveness_life lp = Some l ->
  exists h c',
    holder_ptr_ctor pref lp w = (h, <[l := c']> w)
    /\ (exists rc, history (controlBlock c')
                   = history (controlBlock c) ++ [call_tryrdlock rc])
    /\ (writer (controlBlock c) = true
        \/ (pref = prefer_writer
            /\ waiting_writers (controlBlock c) <> 0%nat) ->
        to_pointer h = nullptr
        /\ same_counts (controlBlock c) (controlBlock c')
        /\ history (controlBlock c')
           = history (controlBlock c) ++ [call_tryrdlock EBUSY]
        /\ holder_ptr_dtor h (<[l := c']> w) = <[l := c']> w).
Proof.
  intros Hw Hlp. eexists _, _. split; [apply holder_ptr_ctor_at; eassumption|].
  split.
  - eexists. rewrite retain_lock. apply tryrdlock_history.
  - intros Hbusy.
    assert (Hblock : rdlock_would_block pref (controlBlock c) = true).
    { unfold rdlock_would_block. destruct Hbusy as [->|[-> Hn]]; [reflexivity|].
      apply orb_true_iff. right. apply negb_true_iff, Nat.eqb_neq. exact Hn. }
    rewrite retain_lock, (tryrdlock_refused _ _ Hblock); cbn.
    rewrite (retain_refused _ _ Hblock).
    repeat split; reflexivity.
Qed.

Lemma guard_acquisition_fails_fast_witness :
  exists h c',
    holder_ptr_ctor prefer_reader Samples.observer Samples.dying_store
    = (h, <[1%positive := c']> Samples.dying_store)
    /\ to_pointer h = nullptr.
Proof.
  destruct (guard_acquisition_fails_fast prefer_reader Samples.dying_store
              1%positive Samples.observer Samples.dying_cell
              eq_refl eq_refl) as (h & c' & Hctor & _ & Hbusy).
  exists h, c'. split; [exact Hctor|].
  apply Hbusy. left. reflexivity.
Defined.

Lemma pending_system_reachable :
  reachable prefer_reader 7%N Samples.pending_system
  /\ reachable prefer_writer 7%N Samples.pending_system.
Proof.
  split; unfold reachable, initial, Samples.pending_system.
  - eapply rtc_l; [apply step_tryrdlock_granted; reflexivity|].
    eapply rtc_l; [apply (step_retain_return prefer_reader _ _ [] [])|].
    eapply rtc_l; [apply step_wrlock_enter|].
    cbn. apply rtc_refl.
  - eapply rtc_l; [apply step_tryrdlock_granted; reflexivity|].
    eapply rtc_l; [apply (step_retain_return prefer_writer _ _ [] [])|].
    eapply rtc_l; [apply step_wrlock_enter|].
    cbn. apply rtc_refl.
Qed.

(** C3 as stated fails for a teardown that is only pending: with a lock
    that prefers readers, one guard in scope and the owner blocked inside
    [waitForDeath], a further guard acquires the lifeline and converts to
    the live object. *)
Lemma pending_teardown_admits_guard :
  reachable prefer_reader 7%N Samples.pending_system
  /\ owner Samples.pending_system = owner_waiting
  /\ writer (controlBlock (cell Samples.pending_system)) = false
  /\ waiting_writers (controlBlock (cell Samples.pending_system)) = 1%nat
  /\ to_pointer
       (fst (holder_ptr_ctor prefer_reader Samples.observer
               {[1%positive := cell Samples.pending_system]})) = 7%N
  /\ 7%N <> nullptr.
Proof.
  split; [exact (proj1 pending_system_reachable)|].
  repeat split; try reflexivity. discriminate.
Qed.

(** ** Read locks taken and given back by one guard *)

Lemma is_set_spec (p : pointer) : is_set p = true <-> p <> nullptr.
Proof. unfold is_set. rewrite negb_true_iff, N.eqb_neq. reflexivity. Qed.

Lemma is_set_false (p : pointer) : is_set p = false <-> p = nullptr.
Proof. unfold is_set. rewrite negb_false_iff, N.eqb_eq. reflexivity. Qed.

(** While the object is alive a guard gives back what it took: either its
    [tryrdlock] was refused and the destructor does nothing, or it was
    granted and the destructor unlocks once. *)
Lemma guard_balanced_while_alive pref c :
  object c <> nullptr ->
  let '(p, c1) := retain pref c in
  let c2 := if is_set p then release c1 else c1 in
  same_counts (controlBlock c) (controlBlock c2).
Proof.
  intros Halive. unfold retain, pthread_rwlock_tryrdlock.
  destruct (rdlock_would_block pref (controlBlock c)) eqn:Hb; cbn.
  - repeat split.
  - apply is_set_spec in Halive. rewrite Halive.
    unfold rdlock_would_block in Hb. apply orb_false_iff in Hb as [Hw _].
    unfold release, pthread_rwlock_unlock; cbn. rewrite Hw. cbn.
    repeat split. symmetry. exact Hw.
Qed.

(** C4 at a lifeline whose owner is gone: [retain]'s [tryrdlock] is
    granted, [retain] returns the null [object], and the destructor, seeing
    a null [ptr], does not call [release]; one read lock stays held after
    the only guard has been destroyed. *)
Theorem guard_on_dead_lifeline_keeps_read_lock pref :
  waitForDeath Samples.fresh_cell = Some Samples.dead_cell
  /\ readers (controlBlock Samples.dead_cell) = 0%nat
  /\ let '(h, w1) := holder_ptr_ctor pref Samples.observer
                       {[1%positive := Samples.dead_cell]} in
     let w2 := holder_ptr_dtor h w1 in
     to_pointer h = nullptr
     /\ w2 = w1
     /\ w2 !! 1%positive
        = Some (mk_lifeline nullptr
                  (mk_rwlock false 1 0
                     [call_wrlock; call_unlock; call_tryrdlock 0])).
Proof.
  split; [reflexivity|]. split; [reflexivity|].
  rewrite (holder_ptr_ctor_at pref Samples.observer _ 1%positive
             Samples.dead_cell eq_refl (lookup_singleton_eq _ _)).
  assert (Hret : retain pref Samples.dead_cell
                 = (nullptr,
                    mk_lifeline nullptr
                      (mk_rwlock false 1 0
                         [call_wrlock; call_unlock; call_tryrdlock 0])))
    by (destruct pref; reflexivity).
  rewrite Hret; cbn. repeat split.
Qed.

(** ** Moving a guard *)

(** C5 at a guard that holds the object at address 7: after the move
    constructor the source still converts to 7 and the new guard converts
    to whatever its uninitialised [ptr] happens to hold; the source's
    destructor makes no call, the new guard's destructor unlocks only if
    that value is not null.  After move assignment the destination still
    converts to its own old pointer. *)
Theorem moved_guard_keeps_pointer (junk : pointer) :
  let held := mk_holder (Some 1%positive) 7%N in
  (let '(dst, src) := holder_ptr_move junk held in
   to_pointer src = 7%N
   /\ to_pointer dst = junk
   /\ holder_life src = None
   /\ holder_life dst = Some 1%positive
   /\ (forall w : store, holder_ptr_dtor src w = w)
   /\ (forall w : store,
         holder_ptr_dtor dst w
         = if is_set junk then release_at 1%positive w else w))
  /\ (let inert := mk_holder (Some 1%positive) nullptr in
      forall w : store,
        let '(dst, src, w') := holder_ptr_assign junk inert held w in
        to_pointer dst = nullptr
        /\ to_pointer src = 7%N
        /\ holder_life dst = Some 1%positive
        /\ holder_life src = None).
Proof.
  cbn. repeat split.
Qed.

(** ** Empty handles *)

Lemma liveness_chain_life (o : living_ptr) (n : nat) :
  liveness_life (Nat.iter n liveness_of_liveness (liveness_of_living o))
  = living_life o.
Proof. induction n as [|n IH]; cbn; [reflexivity|exact IH]. Qed.

(** C10. A default-constructed living pointer and a moved-from one have no
    lifeline.  Destroying a living pointer without lifeline returns at once
    and leaves every lifeline, with the record of calls on its lock, as it
    was; a guard made from a liveness pointer derived from it through any
    number of conversions converts to a null pointer, and neither its
    constructor nor its destructor changes any lifeline or calls any
    lock. *)
Theorem empty_handles_are_inert pref (o : living_ptr) (n : nat) (w : store) :
  living_life living_ptr_default = None
  /\ (forall b, living_life (snd (living_ptr_move b)) = None)
  /\ (living_life o = None ->
      living_ptr_dtor o w = Some w
      /\ let lp := Nat.iter n liveness_of_liveness (liveness_of_living o) in
         holder_ptr_ctor pref lp w = (mk_holder None nullptr, w)
         /\ to_pointer (fst (holder_ptr_ctor pref lp w)) = nullptr
         /\ holder_ptr_dtor (fst (holder_ptr_ctor pref lp w))
                            (snd (holder_ptr_ctor pref lp w)) = w).
Proof.
  split; [reflexivity|]. split; [reflexivity|].
  intros Hempty. split.
  - unfold living_ptr_dtor. now rewrite Hempty.
  - cbn zeta.
    assert (Hctor : holder_ptr_ctor pref
                      (Nat.iter n liveness_of_liveness (liveness_of_living o)) w
                    = (mk_holder None nullptr, w)).
    { unfold holder_ptr_ctor; cbn. rewrite liveness_chain_life, Hempty.
      reflexivity. }
    rewrite Hctor. repeat split.
Qed.

Lemma empty_handles_are_inert_witness :
  living_life (snd (living_ptr_move (mk_living (Some 1%positive)))) = None
  /\ living_ptr_dtor (snd (living_ptr_move (mk_living (Some 1%positive))))
                     Samples.dying_store
     = Some Samples.dying_store.
Proof.
  split; [reflexivity|].
  exact (proj1 (proj2 (proj2 (empty_handles_are_inert prefer_reader
                  (snd (living_ptr_move (mk_living (Some 1%positive))))
                  2 Samples.dying_store)) eq_refl)).
Defined.

(** ** Guards and the owner on one lifeline, in any interleaving *)

Lemma holders_app gs1 gs2 :
  holders (gs1 ++ gs2) = (holders gs1 + holders gs2)%nat.
Proof.
  induction gs1 as [|[|p] gs1 IH]; cbn; [reflexivity|lia|].
  destruct (is_set p); lia.
Qed.

Lemma users_app gs1 gs2 : users (gs1 ++ gs2) = (users gs1 + users gs2)%nat.
Proof.
  induction gs1 as [|[|p] gs1 IH]; cbn; [reflexivity|lia|].
  destruct (is_set p); lia.
Qed.

Lemma users_le_holders gs : (users gs <= holders gs)%nat.
Proof.
  induction gs as [|[|p] gs IH]; cbn; [lia|lia|].
  destruct (is_set p); lia.
Qed.

Lemma users_in_scope gs p :
  In (guard_in_scope p) gs -> p <> nullptr -> (1 <= users gs)%nat.
Proof.
  intros Hin Hp. apply in_split in Hin as (gs1 & gs2 & ->).
  rewrite users_app. cbn. apply is_set_spec in Hp. rewrite Hp. lia.
Qed.

(** The steps are what the handles' code does: constructing a guard,
    destroying it, and the owner's [waitForDeath] are runs of the
    relation. *)
Lemma construction_steps pref c o gs :
  rtc (step pref) (mk_system c o gs)
      (mk_system (snd (retain pref c)) o
                 (guard_in_scope (fst (retain pref c)) :: gs)).
Proof.
  unfold retain.
  destruct (pthread_rwlock_tryrdlock pref (controlBlock c)) as [rc l] eqn:Htry.
  destruct (Z.eqb_spec rc 0) as [->|Hrc]; cbn.
  - eapply rtc_l; [apply step_tryrdlock_granted; exact Htry|].
    apply rtc_once. exact (step_retain_return pref (with_lock c l) o [] gs).
  - apply rtc_once. eapply step_tryrdlock_refused; eassumption.
Qed.


Lemma teardown_steps pref c c' gs :
  waitForDeath c = Some c' ->
  rtc (step pref) (mk_system c owner_alive gs) (mk_system c' owner_dead gs).
Proof.
  unfold waitForDeath, pthread_rwlock_wrlock.
  destruct (wrlock_grant (wrlock_enqueue (controlBlock c))) as [l|] eqn:Hg;
    [|discriminate].
  intros H. injection H as <-.
  eapply rtc_l; [apply step_wrlock_enter|].
  eapply rtc_l; [apply step_wrlock_return; exact Hg|].
  eapply rtc_l; [apply step_clear|].
  apply rtc_once. apply step_unlock.
Qed.

Lemma holder_ptr_dtor_at (w : store) l c p :
  w !! l = Some c ->
  holder_ptr_dtor (mk_holder (Some l) p) w
  = <[l := if is_set p then release c else c]> w.
Proof.
  intros Hw. unfold holder_ptr_dtor, release_at; cbn. rewrite Hw.
  destruct (is_set p); [reflexivity|]. symmetry. now apply insert_id.
Qed.

Lemma invariant_initial obj : invariant obj (initial obj).
Proof. split; cbn; auto; discriminate. Qed.

Lemma invariant_step pref obj s s' :
  step pref s s' -> invariant obj s -> invariant obj s'.
Proof.
  intros Hstep [Hobj Hwr Hex Hhold Huse Hptr]; cbn in *.
  destruct Hstep as [c gs | c l gs Hgrant | c gs | c gs | c o gs l Htry
                    | c o gs rc l Htry Hrc | c o gs1 gs2 | c o gs1 p gs2];
    cbn in *.
  - (* entering pthread_rwlock_wrlock *)
    split; cbn; auto; discriminate.
  - (* pthread_rwlock_wrlock returns *)
    unfold wrlock_grant in Hgrant.
    destruct (negb (writer (controlBlock c))
              && Nat.eqb (readers (controlBlock c)) 0
              && negb (Nat.eqb (waiting_writers (controlBlock c)) 0)) eqn:Hc;
      [|discriminate].
    injection Hgrant as <-.
    apply andb_true_iff in Hc as [Hc _]. apply andb_true_iff in Hc as [_ Hr].
    apply Nat.eqb_eq in Hr.
    split; cbn; auto; discriminate.
  - (* object = nullptr *)
    split; cbn; auto.
    intros _. pose proof (users_le_holders gs). specialize (Hex Hwr). lia.
  - (* the owner unlocks *)
    unfold pthread_rwlock_unlock. rewrite Hwr.
    split; cbn; auto.
  - (* tryrdlock granted *)
    unfold pthread_rwlock_tryrdlock in Htry.
    destruct (rdlock_would_block pref (controlBlock c)) eqn:Hb;
      [discriminate|].
    injection Htry as <-.
    unfold rdlock_would_block in Hb. apply orb_false_iff in Hb as [Hw _].
    split; cbn; auto.
    + intros Hw'. congruence.
    + lia.
    + constructor; [exact I|assumption].
  - (* tryrdlock refused *)
    unfold pthread_rwlock_tryrdlock in Htry.
    destruct (rdlock_would_block pref (controlBlock c));
      injection Htry as <- <-; [|congruence].
    split; cbn; auto.
    constructor; [left; reflexivity|assumption].
  - (* retain returns the object *)
    rewrite holders_app in Hhold. cbn in Hhold.
    apply Forall_app in Hptr as [Hp1 Hp2]. apply Forall_cons in Hp2 as [_ Hp2].
    split; cbn; auto.
    + rewrite holders_app. cbn. destruct (is_set (object c)); lia.
    + intros Ha. specialize (Huse Ha). rewrite users_app in Huse |- *.
      cbn in Huse |- *. rewrite Hobj, Ha. cbn. exact Huse.
    + apply Forall_app. split; [assumption|]. constructor; [|assumption].
      cbn. rewrite Hobj. destruct (after_clear o); auto.
  - (* a guard is destroyed *)
    rewrite holders_app in Hhold. cbn in Hhold.
    apply Forall_app in Hptr as [Hp1 Hp2]. apply Forall_cons in Hp2 as [_ Hp2].
    assert (Hfa : Forall (pointer_from obj) (gs1 ++ gs2))
      by (apply Forall_app; split; assumption).
    destruct (is_set p) eqn:Hp.
    + assert (Hw : writer (controlBlock c) = false).
      { destruct (writer (controlBlock c)); [|reflexivity].
        specialize (Hex eq_refl). lia. }
      unfold release, pthread_rwlock_unlock. rewrite Hw.
      split; cbn; auto.
      * congruence.
      * discriminate.
      * rewrite holders_app. lia.
      * intros Ha. specialize (Huse Ha). rewrite users_app in Huse.
        cbn in Huse. rewrite Hp in Huse. lia.
    + split; cbn; auto.
      * rewrite holders_app. lia.
      * intros Ha. specialize (Huse Ha). rewrite users_app in Huse |- *.
        cbn in Huse. rewrite Hp in Huse. exact Huse.
Qed.

Lemma invariant_reachable pref obj s :
  reachable pref obj s -> invariant obj s.
Proof.
  unfold reachable. revert s.
  apply (rtc_ind_r (invariant obj) (initial obj)).
  - apply invariant_initial.
  - intros s1 s2 _ Hstep IH. eapply invariant_step; eassumption.
Qed.

(** In every state that the owner and any number of guards can reach by
    [step], that is without moves, a guard in scope whose
    acquisition returned a non-null pointer holds the object's address,
    the lifeline still stores that address, and the owner has not got past
    [pthread_rwlock_wrlock]: the object is alive, the reference cannot be
    cleared, and the write lock cannot be granted while the guard is in
    scope. *)
Lemma guard_reference_stays_live pref obj s p :
  reachable pref obj s ->
  In (guard_in_scope p) (guards s) ->
  p <> nullptr ->
  p = obj
  /\ object (cell s) = obj
  /\ (owner s = owner_alive \/ owner s = owner_waiting)
  /\ (1 <= readers (controlBlock (cell s)))%nat
  /\ writer (controlBlock (cell s)) = false
  /\ wrlock_grant (controlBlock (cell s)) = None
  /\ (forall s', step pref s s' ->
        object (cell s') = obj
        /\ (owner s' = owner_alive \/ owner s' = owner_waiting)).
Proof.
  intros Hreach Hin Hp.
  assert (Hmain : forall s, invariant obj s ->
            In (guard_in_scope p) (guards s) ->
            p = obj
            /\ object (cell s) = obj
            /\ (owner s = owner_alive \/ owner s = owner_waiting)
            /\ (1 <= readers (controlBlock (cell s)))%nat
            /\ writer (controlBlock (cell s)) = false).
  { clear s Hreach Hin. intros s [Hobj Hwr Hex Hhold Huse Hptr] Hin.
    pose proof (users_in_scope _ _ Hin Hp) as Hu.
    pose proof (users_le_holders (guards s)) as Hle.
    assert (Hr : (1 <= readers (controlBlock (cell s)))%nat) by lia.
    assert (Hw : writer (controlBlock (cell s)) = false).
    { destruct (writer (controlBlock (cell s))); [|reflexivity].
      specialize (Hex eq_refl). lia. }
    assert (Ha : after_clear (owner s) = false).
    { destruct (after_clear (owner s)); [|reflexivity].
      specialize (Huse eq_refl). lia. }
    rewrite Ha in Hobj. rewrite Hw in Hwr.
    rewrite List.Forall_forall in Hptr. specialize (Hptr _ Hin). cbn in Hptr.
    repeat split; try assumption.
    - destruct Hptr; congruence.
    - destruct (owner s); cbn in *; auto; discriminate. }
  pose proof (invariant_reachable _ _ _ Hreach) as Hinv.
  destruct (Hmain s Hinv Hin) as (Hpo & Hobj & Hown & Hr & Hw).
  assert (Hgrant : wrlock_grant (controlBlock (cell s)) = None).
  { unfold wrlock_grant. rewrite Hw. cbn.
    destruct (readers (controlBlock (cell s))); [lia|reflexivity]. }
  refine (conj Hpo (conj Hobj (conj Hown (conj Hr (conj Hw (conj Hgrant _)))))).
  intros s' Hstep.
  destruct Hstep as [c gs | c l gs Hl | c gs | c gs | c o gs l Htry
                    | c o gs rc l Htry Hrc | c o gs1 gs2 | c o gs1 q gs2];
    cbn in *;
    try (destruct Hown; discriminate); try congruence; auto.
  destruct (is_set q); cbn; auto.
Qed.

(** ** After the owner's teardown *)

Lemma step_keeps_dead pref s s' :
  step pref s s' -> owner s = owner_dead -> owner s' = owner_dead.
Proof. intros Hstep. destruct Hstep; cbn; congruence. Qed.

Lemma steps_keep_dead pref s s' :
  rtc (step pref) s s' -> owner s = owner_dead -> owner s' = owner_dead.
Proof.
  induction 1 as [|s1 s2 s3 Hstep _ IH]; [trivial|].
  intros Hdead. apply IH. eapply step_keeps_dead; eassumption.
Qed.

(** C1. In any interleaving, once the owner's [waitForDeath] has returned
    it stays returned, the stored reference is null and every guard in
    scope holds a null pointer, whatever guards are constructed and
    destroyed afterwards; and whatever accesses threads then make to the
    lifeline (inside [retain], [release] or a further [waitForDeath]) the
    reference stays null: [retain] returns null, every guard constructed
    converts to a null pointer, and [release] and a further [waitForDeath]
    leave the reference null. *)
Theorem dead_is_terminal pref obj s s' :
  reachable pref obj s ->
  owner s = owner_dead ->
  rtc (step pref) s s' ->
  owner s' = owner_dead
  /\ object (cell s') = nullptr
  /\ (forall p, In (guard_in_scope p) (guards s') -> p = nullptr)
  /\ (forall acs c,
        perform_all pref acs (cell s') = Some c ->
        object c = nullptr
        /\ fst (retain pref c) = nullptr
        /\ object (snd (retain pref c)) = nullptr
        /\ object (release c) = nullptr
        /\ (forall c', waitForDeath c = Some c' -> object c' = nullptr)
        /\ (forall (w : store) l lp,
              w !! l = Some c -> liveness_life lp = Some l ->
              to_pointer (fst (holder_ptr_ctor pref lp w)) = nullptr)).
Proof.
  intros Hreach Hdead Hsteps.
  assert (Hdead' : owner s' = owner_dead)
    by (eapply steps_keep_dead; eassumption).
  assert (Hinv : invariant obj s').
  { apply (invariant_reachable pref). unfold reachable in *.
    eapply rtc_trans; eassumption. }
  destruct Hinv as [Hobj _ _ _ Huse _]. rewrite Hdead' in Hobj, Huse.
  cbn in Hobj, Huse. specialize (Huse eq_refl).
  split; [exact Hdead'|]. split; [exact Hobj|]. split.
  - intros p Hin. destruct (N.eq_dec p nullptr) as [Hp|Hp]; [exact Hp|].
    pose proof (users_in_scope _ _ Hin Hp). lia.
  - intros acs c Hrun.
    assert (Hnull : object c = nullptr)
      by (eapply perform_all_keeps_null; eassumption).
    assert (Hret : fst (retain pref c) = nullptr).
    { destruct (retain_result pref c) as [H|H]; congruence. }
    split; [exact Hnull|]. split; [exact Hret|]. split; [|split; [|split]].
    + rewrite retain_object. exact Hnull.
    + exact Hnull.
    + intros c'. apply waitForDeath_clears.
    + intros w l lp Hw Hlp.
      rewrite holder_ptr_ctor_pointer, Hlp, Hw. exact Hret.
Qed.

Lemma dead_is_terminal_witness :
  reachable prefer_writer 7%N Samples.dead_system
  /\ owner Samples.dead_system = owner_dead
  /\ rtc (step prefer_writer) Samples.dead_system Samples.later_system
  /\ owner Samples.later_system = owner_dead
  /\ object (cell Samples.later_system) = nullptr.
Proof.
  assert (Hreach : reachable prefer_writer 7%N Samples.dead_system).
  { apply (teardown_steps prefer_writer Samples.fresh_cell Samples.dead_cell).
    reflexivity. }
  assert (Hlater : rtc (step prefer_writer) Samples.dead_system
                       Samples.later_system).
  { apply (construction_steps prefer_writer Samples.dead_cell owner_dead []). }
  pose proof (dead_is_terminal prefer_writer 7%N Samples.dead_system
                Samples.later_system Hreach eq_refl Hlater)
    as (Hdead & Hnull & _).
  exact (conj Hreach (conj eq_refl (conj Hlater (conj Hdead Hnull)))).
Defined.

(* ===================================================================== *)
(** * Further properties of the unique ids *)
(* ===================================================================== *)

Lemma hasType_spec (u : Uid.uid) (t : Uid.uidType) :
  Uid.hasType u t = true <-> Uid.type u = t.
Proof.
  unfold Uid.hasType. split; [apply Byte.byte_dec_bl|apply Byte.byte_dec_lb].
Qed.

(** X1. The null id of a type has that type and no other, and the null ids
    of two types compare equal only when the types are the same; its
    sixteen bytes are all zero except the type byte. *)
Theorem null_carries_its_type (order : Uid.byte_order) (t t' : Uid.uidType) :
  (Uid.hasType (Uid.null t) t' = true <-> t = t')
  /\ (Uid.eq order (Uid.null t) (Uid.null t') = true <-> t = t')
  /\ Uid.bytes (Uid.null t) = repeat x00 8 ++ t :: repeat x00 7.
Proof.
  split; [apply hasType_spec|]. split; [|reflexivity].
  rewrite uid_eq_spec. split; [|now intros ->].
  intros H. apply (f_equal Uid.type) in H. exact H.
Qed.

Lemma word_top (order : Uid.byte_order) (u : Uid.uid) :
  exists low,
    0 <= low < 256 ^ 7
    /\ Uid.word order u 0
       = low + 256 ^ 7 * Uid.signed_val (Uid.top_byte order u).
Proof.
  destruct u as [[[[[m0 m1] m2] m3] m4] [[a0 a1] a2] t n].
  pose proof (char_val_range m0). pose proof (char_val_range m1).
  pose proof (char_val_range m2). pose proof (char_val_range m3).
  pose proof (char_val_range m4). pose proof (char_val_range a0).
  pose proof (char_val_range a1). pose proof (char_val_range a2).
  destruct n as [[[[[[n0 n1] n2] n3] n4] n5] n6].
  unfold Uid.word, Uid.load_long, Uid.to_long, Uid.signed_val, Uid.top_byte.
  destruct order; cbn [Uid.bytes Uid.module Uid.author Uid.name Uid.type
                       Nat.mul Nat.add skipn firstn rev app Uid.unsigned_le].
  - exists (Uid.char_val m0 + 256 * (Uid.char_val m1 + 256 * (Uid.char_val m2
            + 256 * (Uid.char_val m3 + 256 * (Uid.char_val m4
            + 256 * (Uid.char_val a0 + 256 * Uid.char_val a1)))))).
    change (2 ^ 63) with 9223372036854775808.
    change (2 ^ 64) with 18446744073709551616.
    change (256 ^ 7) with 72057594037927936.
    split; [lia|].
    destruct (Z.ltb_spec (Uid.char_val a2) 128);
      match goal with |- context [?x <? ?y] => destruct (Z.ltb_spec x y) end;
      lia.
  - exists (Uid.char_val a2 + 256 * (Uid.char_val a1 + 256 * (Uid.char_val a0
            + 256 * (Uid.char_val m4 + 256 * (Uid.char_val m3
            + 256 * (Uid.char_val m2 + 256 * Uid.char_val m1)))))).
    change (2 ^ 63) with 9223372036854775808.
    change (2 ^ 64) with 18446744073709551616.
    change (256 ^ 7) with 72057594037927936.
    split; [lia|].
    destruct (Z.ltb_spec (Uid.char_val m0) 128);
      match goal with |- context [?x <? ?y] => destruct (Z.ltb_spec x y) end;
      lia.
Qed.

(** X2. [operator<] is decided by one byte whenever that byte differs as a
    signed number: [author[2]] on a little-endian host and [module[0]] on
    a big-endian one, whatever the other fifteen bytes are. *)
Theorem lt_decided_by_top_byte (order : Uid.byte_order) (a b : Uid.uid) :
  Uid.signed_val (Uid.top_byte order a)
  < Uid.signed_val (Uid.top_byte order b) ->
  Uid.lt order a b = true /\ Uid.lt order b a = false.
Proof.
  intros Hlt.
  destruct (word_top order a) as (la & Hla & Ha).
  destruct (word_top order b) as (lb & Hlb & Hb).
  change (256 ^ 7) with 72057594037927936 in *.
  assert (Hw : Uid.word order a 0 < Uid.word order b 0) by lia.
  split.
  - apply uid_lt_spec. left. exact Hw.
  - apply not_true_is_false. rewrite uid_lt_spec. lia.
Qed.

Lemma lt_decided_by_top_byte_witness :
  Uid.signed_val (Uid.top_byte Uid.little_endian Samples.low_author)
  < Uid.signed_val (Uid.top_byte Uid.little_endian Samples.high_author)
  /\ Uid.lt Uid.little_endian Samples.low_author Samples.high_author = true.
Proof.
  assert (H : Uid.signed_val (Uid.top_byte Uid.little_endian Samples.low_author)
              < Uid.signed_val
                  (Uid.top_byte Uid.little_endian Samples.high_author))
    by (vm_compute; reflexivity).
  refine (conj H _).
  exact (proj1 (lt_decided_by_top_byte Uid.little_endian Samples.low_author
                  Samples.high_author H)).
Defined.

Lemma swap_halves_words (order : Uid.byte_order) (u : Uid.uid) :
  Uid.word order (Uid.swap_halves u) 0 = Uid.word order u 1
  /\ Uid.word order (Uid.swap_halves u) 1 = Uid.word order u 0.
Proof.
  destruct u as [[[[[m0 m1] m2] m3] m4] [[a0 a1] a2] t
                 [[[[[[n0 n1] n2] n3] n4] n5] n6]].
  split; reflexivity.
Qed.

(** X3. The hash is a 64-bit value, and it does not tell the two halves of
    an id apart: exchanging the first eight bytes with the last eight
    gives an id with the same hash, and that id is a different one (by
    [operator==]) unless the two words are equal. *)
Theorem hash_ignores_order_of_halves (order : Uid.byte_order) (u : Uid.uid) :
  0 <= Uid.hash order u < 2 ^ 64
  /\ Uid.hash order (Uid.swap_halves u) = Uid.hash order u
  /\ Uid.eq order (Uid.swap_halves u) u
     = (Uid.word order u 0 =? Uid.word order u 1).
Proof.
  destruct (swap_halves_words order u) as [H0 H1].
  split; [apply Z.mod_pos_bound; reflexivity|]. split.
  - unfold Uid.hash. rewrite H0, H1, Z.lxor_comm. reflexivity.
  - unfold Uid.eq. rewrite H0, H1.
    destruct (Z.eqb_spec (Uid.word order u 1) (Uid.word order u 0)) as [E|N];
      cbn.
    + reflexivity.
    + symmetry. apply Z.eqb_neq. congruence.
Qed.

(* ===================================================================== *)
(** * Further properties of the lifeline and its handles *)
(* ===================================================================== *)

Lemma living_ptr_ctor_ok (thiz : pointer) (w : store) p w1 :
  living_ptr_ctor true 0 thiz w = Some (p, w1) ->
  exists l, w !! l = None /\ p = mk_living (Some l)
            /\ w1 = <[l := mk_lifeline thiz rwlock_init]> w.
Proof.
  unfold living_ptr_ctor, lifeline_ctor; cbn. intros H. injection H as <- <-.
  exists (fresh (dom w)). split; [|split; reflexivity].
  apply not_elem_of_dom. apply is_fresh.
Qed.

(** X4. The constructor of a living pointer throws exactly when an
    allocation fails or the lock cannot be initialised, and then nothing is
    allocated; otherwise the new lifeline is at an address no existing
    lifeline has, it stores [thiz] with a lock nobody holds, and every
    other lifeline is as before. *)
Theorem living_ptr_ctor_allocates (allocated : bool) (rc : Z)
  (thiz : pointer) (w : store) :
  match living_ptr_ctor allocated rc thiz w with
  | None => allocated = false \/ rc <> 0
  | Some (p, w') =>
      allocated = true
      /\ rc = 0
      /\ exists l,
           living_life p = Some l
           /\ w !! l = None
           /\ w' !! l = Some (mk_lifeline thiz rwlock_init)
           /\ forall l', l' <> l -> w' !! l' = w !! l'
  end.
Proof.
  unfold living_ptr_ctor, lifeline_ctor.
  destruct allocated; [|left; reflexivity].
  destruct (Z.eqb_spec rc 0) as [->|Hrc]; cbn; [|right; exact Hrc].
  split; [reflexivity|]. split; [reflexivity|]. exists (fresh (dom w)).
  split; [reflexivity|]. split; [apply not_elem_of_dom, is_fresh|].
  split; [apply lookup_insert_eq|].
  intros l' Hne. apply lookup_insert_ne. congruence.
Qed.

Lemma retain_free pref c :
  rdlock_would_block pref (controlBlock c) = false ->
  retain pref c
  = (object c,
     with_lock c (mk_rwlock (writer (controlBlock c))
                            (S (readers (controlBlock c)))
                            (waiting_writers (controlBlock c))
                            (history (controlBlock c) ++ [call_tryrdlock 0]))).
Proof.
  intros H. unfold retain. rewrite (tryrdlock_granted _ _ H). reflexivity.
Qed.

Lemma retain_null pref c : object c = nullptr -> fst (retain pref c) = nullptr.
Proof. intros H. destruct (retain_result pref c); congruence. Qed.

Lemma rwlock_init_free pref : rdlock_would_block pref rwlock_init = false.
Proof. destruct pref; reflexivity. Qed.

Lemma waitForDeath_spec c :
  match waitForDeath c with
  | Some c' =>
      writer (controlBlock c) = false
      /\ readers (controlBlock c) = 0%nat
      /\ c' = mk_lifeline nullptr
                (mk_rwlock false 0 (waiting_writers (controlBlock c))
                   (history (controlBlock c) ++ [call_wrlock; call_unlock]))
  | None =>
      writer (controlBlock c) = true \/ readers (controlBlock c) <> 0%nat
  end.
Proof.
  unfold waitForDeath, pthread_rwlock_wrlock, wrlock_grant, wrlock_enqueue.
  destruct c as [o [wr rd wt hs]]; cbn.
  destruct wr; cbn; [left; reflexivity|].
  destruct rd; cbn.
  - split; [reflexivity|]. split; [reflexivity|].
    unfold with_lock, clear_object, pthread_rwlock_unlock; cbn.
    now rewrite <- app_assoc.
  - right. discriminate.
Qed.

(** X5. A guard made from a freshly constructed living pointer, through
    any number of liveness-pointer conversions, converts to the address
    the living pointer was built with; while it is in scope the lock has
    one reader, and destroying it leaves the lock with no holder, after
    one [tryrdlock] and one [unlock]. *)
Theorem guard_of_fresh_owner pref (thiz : pointer) (w : store) p w1 (n : nat) :
  living_ptr_ctor true 0 thiz w = Some (p, w1) ->
  thiz <> nullptr ->
  let lp := Nat.iter n liveness_of_liveness (liveness_of_living p) in
  let h := fst (holder_ptr_ctor pref lp w1) in
  let w2 := snd (holder_ptr_ctor pref lp w1) in
  to_pointer h = thiz
  /\ exists l c2 c3,
       living_life p = Some l
       /\ w2 !! l = Some c2
       /\ readers (controlBlock c2) = 1%nat
       /\ holder_ptr_dtor h w2 !! l = Some c3
       /\ object c3 = thiz
       /\ same_counts rwlock_init (controlBlock c3)
       /\ history (controlBlock c3) = [call_tryrdlock 0; call_unlock].
Proof.
  intros Hctor Hthiz.
  destruct (living_ptr_ctor_ok _ _ _ _ Hctor) as (l & Hfresh & -> & ->).
  cbn zeta.
  rewrite (holder_ptr_ctor_at pref _ _ l (mk_lifeline thiz rwlock_init));
    [|apply liveness_chain_life|apply lookup_insert_eq].
  rewrite (retain_free pref (mk_lifeline thiz rwlock_init)
             (rwlock_init_free pref)). cbn.
  split; [reflexivity|].
  apply is_set_spec in Hthiz.
  eexists l, _, _. split; [reflexivity|].
  split; [apply lookup_insert_eq|]. split; [reflexivity|].
  unfold holder_ptr_dtor, release_at; cbn. rewrite Hthiz, lookup_insert_eq.
  split; [apply lookup_insert_eq|].
  cbn. repeat split.
Qed.

Lemma guard_of_fresh_owner_witness :
  living_ptr_ctor true 0 7%N Samples.dying_store
  = Some (mk_living (Some 2%positive),
          <[2%positive := Samples.fresh_cell]> Samples.dying_store)
  /\ 7%N <> nullptr
  /\ to_pointer
       (fst (holder_ptr_ctor prefer_reader
               (Nat.iter 3 liveness_of_liveness
                  (liveness_of_living (mk_living (Some 2%positive))))
               (<[2%positive := Samples.fresh_cell]> Samples.dying_store)))
     = 7%N.
Proof.
  assert (Hctor : living_ptr_ctor true 0 7%N Samples.dying_store
                  = Some (mk_living (Some 2%positive),
                          <[2%positive := Samples.fresh_cell]>
                            Samples.dying_store))
    by (vm_compute; reflexivity).
  assert (Hp : 7%N <> nullptr) by discriminate.
  refine (conj Hctor (conj Hp _)).
  exact (proj1 (guard_of_fresh_owner prefer_reader 7%N Samples.dying_store
                  _ _ 3 Hctor Hp)).
Defined.

(** X6. With a guard of a freshly constructed living pointer in scope the
    living pointer's destructor does not return; once the guard has been
    destroyed it returns, and a guard made afterwards converts to a null
    pointer. *)
Theorem teardown_waits_for_guard pref (thiz : pointer) (w : store) p w1 :
  living_ptr_ctor true 0 thiz w = Some (p, w1) ->
  thiz <> nullptr ->
  let lp := liveness_of_living p in
  let h := fst (holder_ptr_ctor pref lp w1) in
  let w2 := snd (holder_ptr_ctor pref lp w1) in
  living_ptr_dtor p w2 = None
  /\ exists w3,
       living_ptr_dtor p (holder_ptr_dtor h w2) = Some w3
       /\ to_pointer (fst (holder_ptr_ctor pref lp w3)) = nullptr.
Proof.
  intros Hctor Hthiz.
  destruct (living_ptr_ctor_ok _ _ _ _ Hctor) as (l & Hfresh & -> & ->).
  cbn zeta.
  rewrite (holder_ptr_ctor_at pref _ _ l (mk_lifeline thiz rwlock_init));
    [|reflexivity|apply lookup_insert_eq].
  rewrite (retain_free pref (mk_lifeline thiz rwlock_init)
             (rwlock_init_free pref)).
  cbn [fst snd object controlBlock rwlock_init writer readers
       waiting_writers history app with_lock].
  set (c2 := mk_lifeline thiz (mk_rwlock false 1 0 [call_tryrdlock 0])).
  apply is_set_spec in Hthiz.
  split.
  - unfold living_ptr_dtor, waitForDeath_at; cbn [living_life].
    rewrite lookup_insert_eq. reflexivity.
  - rewrite (holder_ptr_dtor_at _ l c2) by apply lookup_insert_eq.
    rewrite Hthiz.
    unfold living_ptr_dtor, waitForDeath_at; cbn [living_life].
    rewrite lookup_insert_eq.
    assert (Hw : exists c3, waitForDeath (release c2) = Some c3
                            /\ object c3 = nullptr)
      by (eexists; split; reflexivity).
    destruct Hw as (c3 & -> & Hnull).
    eexists. split; [reflexivity|].
    rewrite holder_ptr_ctor_pointer.
    cbn [liveness_life liveness_of_living living_life].
    rewrite lookup_insert_eq. apply retain_null, Hnull.
Qed.

Lemma teardown_waits_for_guard_witness :
  living_ptr_ctor true 0 7%N Samples.dying_store
  = Some (mk_living (Some 2%positive),
          <[2%positive := Samples.fresh_cell]> Samples.dying_store)
  /\ 7%N <> nullptr
  /\ living_ptr_dtor (mk_living (Some 2%positive))
       (snd (holder_ptr_ctor prefer_writer
               (liveness_of_living (mk_living (Some 2%positive)))
               (<[2%positive := Samples.fresh_cell]> Samples.dying_store)))
     = None.
Proof.
  assert (Hctor : living_ptr_ctor true 0 7%N Samples.dying_store
                  = Some (mk_living (Some 2%positive),
                          <[2%positive := Samples.fresh_cell]>
                            Samples.dying_store))
    by (vm_compute; reflexivity).
  assert (Hp : 7%N <> nullptr) by discriminate.
  refine (conj Hctor (conj Hp _)).
  exact (proj1 (teardown_waits_for_guard prefer_writer 7%N
                  Samples.dying_store _ _ Hctor Hp)).
Defined.

(** ** Several guards on one lifeline *)

Lemma acquire_many_spec pref lp l (n : nat) :
  liveness_life lp = Some l ->
  forall (w : store) c,
    w !! l = Some c ->
    rdlock_would_block pref (controlBlock c) = false ->
    exists c',
      snd (acquire_many pref lp n w) !! l = Some c'
      /\ object c' = object c
      /\ writer (controlBlock c') = writer (controlBlock c)
      /\ waiting_writers (controlBlock c')
         = waiting_writers (controlBlock c)
      /\ readers (controlBlock c') = (readers (controlBlock c) + n)%nat
      /\ fst (acquire_many pref lp n w)
         = repeat (mk_holder (Some l) (object c)) n.
Proof.
  intros Hlp. induction n as [|n IH]; intros w c Hw Hfree; cbn.
  - exists c. repeat split; try assumption. lia.
  - rewrite (holder_ptr_ctor_at pref lp w l c Hlp Hw).
    rewrite (retain_free pref c Hfree). cbn [fst snd].
    set (c1 := with_lock c _).
    destruct (IH (<[l := c1]> w) c1) as (c' & Hl & Ho & Hwr & Hwt & Hr & Hhs).
    { apply lookup_insert_eq. }
    { exact Hfree. }
    destruct (acquire_many pref lp n (<[l := c1]> w)) as [hs w2]; cbn in *.
    exists c'. split; [exact Hl|]. split; [exact Ho|]. split; [exact Hwr|].
    split; [exact Hwt|]. split; [lia|]. now rewrite Hhs.
Qed.

Lemma destroy_all_spec l (obj : pointer) (n : nat) :
  obj <> nullptr ->
  forall (w : store) c,
    w !! l = Some c ->
    writer (controlBlock c) = false ->
    exists c',
      destroy_all (repeat (mk_holder (Some l) obj) n) w !! l = Some c'
      /\ object c' = object c
      /\ writer (controlBlock c') = false
      /\ waiting_writers (controlBlock c')
         = waiting_writers (controlBlock c)
      /\ readers (controlBlock c') = (readers (controlBlock c) - n)%nat.
Proof.
  intros Hobj. apply is_set_spec in Hobj.
  induction n as [|n IH]; intros w c Hw Hwr; cbn [repeat destroy_all].
  - exists c. repeat split; try assumption. lia.
  - rewrite (holder_ptr_dtor_at w l c obj Hw), Hobj.
    destruct (IH (<[l := release c]> w) (release c))
      as (c' & Hl & Ho & Hwr' & Hwt & Hr).
    { apply lookup_insert_eq. }
    { unfold release, pthread_rwlock_unlock. rewrite Hwr. reflexivity. }
    exists c'. split; [exact Hl|].
    unfold release, pthread_rwlock_unlock in Ho, Hwt, Hr.
    rewrite Hwr in Ho, Hwt, Hr. cbn in Ho, Hwt, Hr.
    repeat split; try assumption. lia.
Qed.

(** X7. On a lifeline with a live object and a lock that admits readers,
    any number of guards constructed one after the other all convert to
    the object; the lock counts one reader more for each; and once all of
    them have been destroyed the lock has the holders it had before. *)
Theorem shared_side_admits_many pref lp l (n : nat) (w : store) c :
  liveness_life lp = Some l ->
  w !! l = Some c ->
  rdlock_would_block pref (controlBlock c) = false ->
  object c <> nullptr ->
  let hs := fst (acquire_many pref lp n w) in
  let w' := snd (acquire_many pref lp n w) in
  length hs = n
  /\ Forall (fun h => to_pointer h = object c) hs
  /\ exists c' c'',
       w' !! l = Some c'
       /\ readers (controlBlock c') = (readers (controlBlock c) + n)%nat
       /\ destroy_all hs w' !! l = Some c''
       /\ object c'' = object c
       /\ same_counts (controlBlock c) (controlBlock c'').
Proof.
  intros Hlp Hw Hfree Hobj. cbn zeta.
  destruct (acquire_many_spec pref lp l n Hlp w c Hw Hfree)
    as (c' & Hl & Ho & Hwr & Hwt & Hr & ->).
  assert (Hwr0 : writer (controlBlock c) = false).
  { unfold rdlock_would_block in Hfree. now apply orb_false_iff in Hfree. }
  destruct (destroy_all_spec l (object c) n Hobj _ c' Hl)
    as (c'' & Hl' & Ho' & Hwr' & Hwt' & Hr'); [congruence|].
  split; [apply repeat_length|]. split.
  - apply List.Forall_forall. intros h Hin. apply repeat_spec in Hin as ->.
    reflexivity.
  - exists c', c''. split; [exact Hl|]. split; [exact Hr|].
    split; [exact Hl'|]. split; [congruence|].
    repeat split; [congruence|lia|congruence].
Qed.

Lemma shared_side_admits_many_witness :
  liveness_life Samples.observer = Some 1%positive
  /\ Samples.shared_store !! 1%positive
     = Some (mk_lifeline 7%N
               (mk_rwlock false 2 0 [call_tryrdlock 0; call_tryrdlock 0]))
  /\ length (fst (acquire_many prefer_writer Samples.observer 3
                    Samples.shared_store)) = 3%nat.
Proof.
  refine (conj eq_refl (conj eq_refl _)).
  exact (proj1 (shared_side_admits_many prefer_writer Samples.observer
                  1%positive 3 Samples.shared_store _ eq_refl eq_refl
                  eq_refl ltac:(discriminate))).
Defined.

(** ** Assigning a living pointer *)

(** X12. [a = std::move(x)] on living pointers: [a] takes over [x]'s
    lifeline and [x] is left without one; the lifeline [a] had before is
    torn down (its reference is cleared, which needs its lock to be free,
    else the assignment does not return) and no other lifeline changes. *)
Theorem living_ptr_assign_effect (a x : living_ptr) (w : store) :
  match living_ptr_assign a x w with
  | Some (a', x', w') =>
      living_life a' = living_life x
      /\ living_life x' = None
      /\ match living_life a with
         | None => w' = w
         | Some l =>
             (forall l', l' <> l -> w' !! l' = w !! l')
             /\ forall c, w !! l = Some c ->
                  readers (controlBlock c) = 0%nat
                  /\ writer (controlBlock c) = false
                  /\ exists c', w' !! l = Some c' /\ object c' = nullptr
                                /\ same_counts (controlBlock c)
                                               (controlBlock c')
         end
  | None =>
      exists l c, living_life a = Some l /\ w !! l = Some c
                  /\ (writer (controlBlock c) = true
                      \/ readers (controlBlock c) <> 0%nat)
  end.
Proof.
  unfold living_ptr_assign, living_ptr_move, living_ptr_dtor; cbn.
  destruct (living_life a) as [l|]; [|repeat split].
  unfold waitForDeath_at. destruct (w !! l) as [c|] eqn:Hw.
  - pose proof (waitForDeath_spec c) as Hspec.
    destruct (waitForDeath c) as [c'|].
    + destruct Hspec as (Hwr & Hrd & ->).
      split; [reflexivity|]. split; [reflexivity|]. split.
      * intros l' Hne. apply lookup_insert_ne. congruence.
      * intros c0 Hc0. injection Hc0 as <-.
        split; [exact Hrd|]. split; [exact Hwr|].
        eexists. split; [apply lookup_insert_eq|].
        repeat split; cbn; congruence.
    + exists l, c. repeat split; assumption.
  - split; [reflexivity|]. split; [reflexivity|]. split; [reflexivity|].
    intros c Hc. discriminate.
Qed.

(** ** More on the interleavings of owner and guards *)

Lemma holders_retaining gs : In guard_retaining gs -> (1 <= holders gs)%nat.
Proof.
  intros Hin. apply in_split in Hin as (gs1 & gs2 & ->).
  rewrite holders_app. cbn. lia.
Qed.

Lemma holders_in_scope gs p :
  In (guard_in_scope p) gs -> p <> nullptr -> (1 <= holders gs)%nat.
Proof.
  intros Hin Hp. pose proof (users_in_scope _ _ Hin Hp).
  pose proof (users_le_holders gs). lia.
Qed.

Lemma locked_system_reachable pref :
  reachable pref 7%N Samples.locked_system.
Proof.
  unfold reachable, initial, Samples.locked_system.
  eapply rtc_l; [apply step_wrlock_enter|].
  apply rtc_once. apply step_wrlock_return. reflexivity.
Qed.

(** Without moves: while the owner holds the write lock inside
    [waitForDeath], no
    guard holds the lifeline: nobody is inside [retain], every guard in
    scope has a null pointer, and a [retain] made now is refused without
    changing who holds the lock. *)
Lemma exclusive_phase_excludes_guards pref obj s :
  reachable pref obj s ->
  holds_write_lock (owner s) = true ->
  readers (controlBlock (cell s)) = 0%nat
  /\ ~ In guard_retaining (guards s)
  /\ (forall p, In (guard_in_scope p) (guards s) -> p = nullptr)
  /\ fst (retain pref (cell s)) = nullptr
  /\ same_counts (controlBlock (cell s))
                 (controlBlock (snd (retain pref (cell s)))).
Proof.
  intros Hreach Hlock.
  destruct (invariant_reachable _ _ _ Hreach) as [_ Hwr Hex Hhold _ _].
  rewrite Hlock in Hwr. specialize (Hex Hwr).
  assert (Hblock : rdlock_would_block pref (controlBlock (cell s)) = true).
  { unfold rdlock_would_block. now rewrite Hwr. }
  split; [exact Hex|]. split; [|split; [|split]].
  - intros Hin. apply holders_retaining in Hin. lia.
  - intros p Hin. destruct (N.eq_dec p nullptr) as [Hp|Hp]; [exact Hp|].
    pose proof (holders_in_scope _ _ Hin Hp). lia.
  - apply retain_refused. exact Hblock.
  - rewrite retain_lock, (tryrdlock_refused _ _ Hblock). repeat split.
Qed.

(** Without moves: the lifeline stores the object's address or null and nothing
    else, and the pointer of every guard in scope is one of these two. *)
Lemma guard_pointer_is_object_or_null pref obj s :
  reachable pref obj s ->
  (object (cell s) = obj \/ object (cell s) = nullptr)
  /\ forall p, In (guard_in_scope p) (guards s) -> p = obj \/ p = nullptr.
Proof.
  intros Hreach.
  destruct (invariant_reachable _ _ _ Hreach) as [Hobj _ _ _ _ Hptr].
  split.
  - rewrite Hobj. destruct (after_clear (owner s)); auto.
  - intros p Hin. rewrite List.Forall_forall in Hptr.
    specialize (Hptr _ Hin). cbn in Hptr. tauto.
Qed.

Lemma accounted_initial obj : accounted obj (initial obj).
Proof. split; cbn; auto. Qed.

Lemma accounted_step pref obj s s' :
  step pref s s' -> invariant obj s -> accounted obj s -> accounted obj s'.
Proof.
  intros Hstep [Hobj Hwr Hex Hhold Huse Hptr] [Hwait Hread]; cbn in *.
  destruct Hstep as [c gs | c l gs Hgrant | c gs | c gs | c o gs l Htry
                    | c o gs rc l Htry Hrc | c o gs1 gs2 | c o gs1 p gs2];
    cbn in *.
  - split; cbn; [now rewrite Hwait|auto].
  - unfold wrlock_grant in Hgrant.
    destruct (negb (writer (controlBlock c))
              && Nat.eqb (readers (controlBlock c)) 0
              && negb (Nat.eqb (waiting_writers (controlBlock c)) 0));
      [|discriminate].
    injection Hgrant as <-. split; cbn; [now rewrite Hwait|auto].
  - split; cbn; [exact Hwait|discriminate].
  - unfold pthread_rwlock_unlock. rewrite Hwr.
    split; cbn; [exact Hwait|discriminate].
  - unfold pthread_rwlock_tryrdlock in Htry.
    destruct (rdlock_would_block pref (controlBlock c)); [discriminate|].
    injection Htry as <-. split; cbn; [exact Hwait|].
    intros Ho Ha. now rewrite Hread.
  - unfold pthread_rwlock_tryrdlock in Htry.
    destruct (rdlock_would_block pref (controlBlock c));
      injection Htry as <- <-; [|congruence].
    split; cbn; [exact Hwait|exact Hread].
  - split; cbn; [exact Hwait|].
    intros Ho Ha. rewrite (Hread Ho Ha), !holders_app. cbn.
    rewrite Hobj, Ha. apply is_set_spec in Ho. now rewrite Ho.
  - rewrite holders_app in Hhold. cbn in Hhold.
    destruct (is_set p) eqn:Hp.
    + assert (Hw : writer (controlBlock c) = false).
      { destruct (writer (controlBlock c)); [|reflexivity].
        specialize (Hex eq_refl). lia. }
      unfold release, pthread_rwlock_unlock. rewrite Hw.
      split; cbn; [exact Hwait|].
      intros Ho Ha. rewrite (Hread Ho Ha), !holders_app. cbn.
      rewrite Hp. lia.
    + split; cbn; [exact Hwait|].
      intros Ho Ha. rewrite (Hread Ho Ha), !holders_app. cbn.
      now rewrite Hp.
Qed.

Lemma accounted_reachable pref obj s :
  reachable pref obj s -> accounted obj s.
Proof.
  unfold reachable. revert s.
  apply (rtc_ind_r (accounted obj) (initial obj)).
  - apply accounted_initial.
  - intros s1 s2 Hreach Hstep IH.
    eapply accounted_step; [exact Hstep| |exact IH].
    apply (invariant_reachable pref). exact Hreach.
Qed.

Lemma busy_system_reachable pref : reachable pref 7%N Samples.busy_system.
Proof.
  unfold reachable, initial, Samples.busy_system.
  eapply rtc_l; [apply step_tryrdlock_granted; destruct pref; reflexivity|].
  eapply rtc_l; [apply (step_retain_return pref _ _ [] [])|].
  eapply rtc_l; [apply step_tryrdlock_granted; destruct pref; reflexivity|].
  cbn. apply rtc_refl.
Qed.

(** Without moves: as long as the object (at a non-null address) has not been
    cleared, the read locks held on the lifeline are exactly those of the
    guards that are inside [retain] or in scope with a non-null pointer:
    none is lost and none is left over; and the owner is the only writer
    that ever waits for the lock. *)
Lemma readers_are_guards pref obj s :
  obj <> nullptr ->
  reachable pref obj s ->
  after_clear (owner s) = false ->
  readers (controlBlock (cell s)) = holders (guards s)
  /\ (guards s = [] -> readers (controlBlock (cell s)) = 0%nat)
  /\ waiting_writers (controlBlock (cell s))
     = match owner s with owner_waiting => 1%nat | _ => 0%nat end.
Proof.
  intros Hobj Hreach Ha.
  destruct (accounted_reachable _ _ _ Hreach) as [Hwait Hread].
  specialize (Hread Hobj Ha).
  split; [exact Hread|]. split; [|exact Hwait].
  intros Hgs. rewrite Hread, Hgs. reflexivity.
Qed.





(* ===================================================================== *)
(** * The program with moves *)
(* ===================================================================== *)

(** ** Runs without moves are runs of [step] *)

Lemma holder_dtor_on_cell (p : pointer) (c : lifeline) :
  holder_ptr_dtor (mk_holder (Some the_lifeline) p) {[the_lifeline := c]}
    !! the_lifeline
  = Some (if is_set p then release c else c).
Proof.
  rewrite (holder_ptr_dtor_at _ the_lifeline c p)
    by apply lookup_singleton_eq.
  apply lookup_insert_eq.
Qed.

Lemma as_guard_obj_retain g : as_guard_obj g = in_retain -> g = guard_retaining.
Proof. destruct g; [reflexivity|discriminate]. Qed.

Lemma as_guard_obj_holder g h :
  as_guard_obj g = holder h ->
  exists p, g = guard_in_scope p /\ h = mk_holder (Some the_lifeline) p.
Proof.
  destruct g as [|p]; [discriminate|]. cbn. intros H. injection H as <-.
  exists p. split; reflexivity.
Qed.

Lemma in_as_guard_obj_holder gs h :
  In (holder h) (map as_guard_obj gs) ->
  exists p, h = mk_holder (Some the_lifeline) p /\ In (guard_in_scope p) gs.
Proof.
  intros Hin. apply in_map_iff in Hin as (g & Hg & Hin).
  apply as_guard_obj_holder in Hg as (p & -> & ->). exists p. split; auto.
Qed.

Lemma in_as_guard_obj_retain gs :
  In in_retain (map as_guard_obj gs) -> In guard_retaining gs.
Proof.
  intros Hin. apply in_map_iff in Hin as (g & Hg & Hin).
  apply as_guard_obj_retain in Hg as ->. exact Hin.
Qed.

Lemma lock_holders_as_guard_obj gs :
  lock_holders (map as_guard_obj gs) = holders gs.
Proof.
  induction gs as [|[|p] gs IH]; cbn; [reflexivity|now rewrite IH|].
  rewrite IH. reflexivity.
Qed.

Lemma split_as_guard_obj gs gs1 g gs2 :
  map as_guard_obj gs = gs1 ++ g :: gs2 ->
  exists l1 g0 l2,
    gs = l1 ++ g0 :: l2 /\ map as_guard_obj l1 = gs1
    /\ as_guard_obj g0 = g /\ map as_guard_obj l2 = gs2.
Proof.
  intros H. apply map_eq_app in H as (l1 & l2' & -> & H1 & H2).
  apply map_eq_cons in H2 as (g0 & l2 & -> & Hg & H2).
  exists l1, g0, l2. repeat split; assumption.
Qed.

Lemma plain_step_is_step pref obj s a t :
  program_step pref a (as_program obj s) t ->
  is_move a = false ->
  exists s', t = as_program obj s' /\ step pref s s'.
Proof.
  destruct s as [c o gs]. unfold as_program; cbn. intros Hstep Hplain.
  inversion Hstep; subst; cbn in Hplain; try discriminate.
  - eexists (mk_system _ _ gs). split; [reflexivity|constructor].
  - eexists (mk_system _ _ gs). split; [reflexivity|].
    constructor. assumption.
  - eexists (mk_system _ _ gs). split; [reflexivity|constructor].
  - eexists (mk_system _ _ gs). split; [reflexivity|constructor].
  - exists (mk_system (with_lock c l) o (guard_retaining :: gs)).
    split; [reflexivity|]. constructor. assumption.
  - exists (mk_system (with_lock c l) o (guard_in_scope nullptr :: gs)).
    split; [reflexivity|]. econstructor; eassumption.
  - match goal with H : _ ++ _ :: _ = map _ _ |- _ =>
      symmetry in H;
      apply split_as_guard_obj in H as (l1 & g0 & l2 & -> & <- & Hg & <-)
    end.
    apply as_guard_obj_retain in Hg as ->.
    exists (mk_system c o (l1 ++ guard_in_scope (object c) :: l2)).
    split; [unfold as_program; cbn; now rewrite map_app|constructor].
  - match goal with H : _ ++ _ :: _ = map _ _ |- _ =>
      symmetry in H;
      apply split_as_guard_obj in H as (l1 & g0 & l2 & -> & <- & Hg & <-)
    end.
    apply as_guard_obj_holder in Hg as (p & -> & ->).
    match goal with H : holder_ptr_dtor _ _ !! _ = Some _ |- _ =>
      rewrite holder_dtor_on_cell in H; injection H as <-
    end.
    exists (mk_system (if is_set p then release c else c) o (l1 ++ l2)).
    split; [unfold as_program; cbn; now rewrite map_app|constructor].
Qed.


Lemma plain_run_is_steps pref obj tr t0 t :
  run pref tr t0 t ->
  forall s, t0 = as_program obj s -> no_moves tr ->
            exists s', t = as_program obj s' /\ rtc (step pref) s s'.
Proof.
  induction 1 as [t|a tr t1 t2 t3 Hstep _ IH]; intros s -> Hplain.
  - exists s. split; [reflexivity|apply rtc_refl].
  - apply Forall_cons in Hplain as [Ha Htr].
    destruct (plain_step_is_step _ _ _ _ _ Hstep Ha) as (s1 & -> & Hs1).
    destruct (IH s1 eq_refl Htr) as (s' & -> & Hs').
    exists s'. split; [reflexivity|]. eapply rtc_l; eassumption.
Qed.


Lemma plain_run_reachable pref obj tr t :
  run pref tr (program_initial obj) t ->
  no_moves tr ->
  exists s, t = as_program obj s /\ reachable pref obj s.
Proof.
  intros Hrun Hplain.
  exact (plain_run_is_steps pref obj tr _ t Hrun (initial obj) eq_refl Hplain).
Qed.

Lemma run_app pref tr1 tr2 t1 t2 t3 :
  run pref tr1 t1 t2 -> run pref tr2 t2 t3 -> run pref (tr1 ++ tr2) t1 t3.
Proof.
  induction 1 as [t|a tr t1 t2 t2' Hstep _ IH]; intros H2; cbn;
    [exact H2|].
  econstructor; [exact Hstep|]. apply IH. exact H2.
Qed.

(** ** A guard that is moved *)

(** C2 at a guard that is moved.  A guard acquires the object at address 7
    and a second guard is move-constructed from it; the second guard's
    [ptr] starts out with an indeterminate value, here any non-null one,
    so its destructor gives the read lock back; the owner is torn down.
    The first guard is still in scope and still converts to 7, though
    [waitForDeath] has returned and the reference has been cleared.
    Likewise, after the object has moved from address 7 to address 9 with
    its living pointer, a guard converts to 7. *)
Theorem moved_guard_outlives_object pref (junk : positive) :
  run pref (Samples.moved_run (Npos junk)) (program_initial 7%N)
      Samples.after_moved_run
  /\ p_owner Samples.after_moved_run = owner_dead
  /\ object (p_cell Samples.after_moved_run) = nullptr
  /\ In (holder (mk_holder None 7%N)) (p_guards Samples.after_moved_run)
  /\ to_pointer (mk_holder None 7%N) = 7%N
  /\ 7%N <> nullptr
  /\ run pref [do_move_owner 9%N; do_tryrdlock; do_retain_return]
         (program_initial 7%N) Samples.after_owner_move
  /\ p_object Samples.after_owner_move = 9%N
  /\ In (holder (mk_holder (Some the_lifeline) 7%N))
        (p_guards Samples.after_owner_move).
Proof.
  split.
  { unfold Samples.moved_run, program_initial, Samples.after_moved_run.
    eapply run_step;
      [apply pstep_tryrdlock_granted; destruct pref; reflexivity|].
    eapply run_step; [apply (pstep_retain_return pref _ _ [] [])|].
    eapply run_step; [apply (pstep_move pref _ _ [] _ [])|].
    eapply run_step;
      [apply (pstep_destroy pref _ _ [] _ _); apply holder_dtor_on_cell|].
    eapply run_step; [apply pstep_wrlock_enter|].
    eapply run_step; [apply pstep_wrlock_return; reflexivity|].
    eapply run_step; [apply pstep_clear|].
    eapply run_step; [apply pstep_unlock|].
    cbn. apply run_done. }
  split; [reflexivity|]. split; [reflexivity|].
  split; [left; reflexivity|]. split; [reflexivity|].
  split; [discriminate|]. split.
  { unfold program_initial, Samples.after_owner_move.
    eapply run_step; [apply pstep_move_owner|].
    eapply run_step;
      [apply pstep_tryrdlock_granted; destruct pref; reflexivity|].
    eapply run_step; [apply (pstep_retain_return pref _ _ [] [])|].
    cbn. apply run_done. }
  split; [reflexivity|left; reflexivity].
Qed.

(** ** What holds as long as nothing is moved *)

Lemma pending_run_ok pref :
  run pref Samples.pending_run (program_initial 7%N)
      (as_program 7%N Samples.pending_system)
  /\ no_moves Samples.pending_run.
Proof.
  split; [|repeat constructor].
  unfold Samples.pending_run, program_initial, as_program,
    Samples.pending_system; cbn.
  eapply run_step;
    [apply pstep_tryrdlock_granted; destruct pref; reflexivity|].
  eapply run_step; [apply (pstep_retain_return pref _ _ [] [])|].
  eapply run_step; [apply pstep_wrlock_enter|].
  cbn. apply run_done.
Qed.

Lemma busy_run_ok pref :
  run pref Samples.busy_run (program_initial 7%N)
      (as_program 7%N Samples.busy_system)
  /\ no_moves Samples.busy_run.
Proof.
  split; [|repeat constructor].
  unfold Samples.busy_run, program_initial, as_program,
    Samples.busy_system; cbn.
  eapply run_step;
    [apply pstep_tryrdlock_granted; destruct pref; reflexivity|].
  eapply run_step; [apply (pstep_retain_return pref _ _ [] [])|].
  eapply run_step;
    [apply pstep_tryrdlock_granted; destruct pref; reflexivity|].
  cbn. apply run_done.
Qed.

Lemma locked_run_ok pref :
  run pref Samples.locked_run (program_initial 7%N)
      (as_program 7%N Samples.locked_system)
  /\ no_moves Samples.locked_run.
Proof.
  split; [|repeat constructor].
  unfold Samples.locked_run, program_initial, as_program,
    Samples.locked_system; cbn.
  eapply run_step; [apply pstep_wrlock_enter|].
  eapply run_step; [apply pstep_wrlock_return; reflexivity|].
  cbn. apply run_done.
Qed.

(** X16. In every run of the program in which no guard and no owner is
    moved, a guard in scope that converts to a non-null pointer converts
    to the address of the object, the object is still there and the
    lifeline still stores its address, the owner has not got past
    [pthread_rwlock_wrlock], the guard's read lock is held and the write
    lock cannot be granted. *)
Theorem unmoved_guard_reference_stays_live pref obj tr t h :
  run pref tr (program_initial obj) t ->
  no_moves tr ->
  In (holder h) (p_guards t) ->
  to_pointer h <> nullptr ->
  to_pointer h = obj
  /\ p_object t = obj
  /\ object (p_cell t) = obj
  /\ (p_owner t = owner_alive \/ p_owner t = owner_waiting)
  /\ (1 <= readers (controlBlock (p_cell t)))%nat
  /\ writer (controlBlock (p_cell t)) = false
  /\ wrlock_grant (controlBlock (p_cell t)) = None.
Proof.
  intros Hrun Hplain Hin Hp.
  destruct (plain_run_reachable _ _ _ _ Hrun Hplain) as (s & -> & Hreach).
  cbn in Hin. apply in_as_guard_obj_holder in Hin as (p & -> & Hin).
  cbn in Hp |- *.
  destruct (guard_reference_stays_live pref obj s p Hreach Hin Hp)
    as (H1 & H2 & H3 & H4 & H5 & H6 & _).
  repeat split; assumption.
Qed.

Lemma unmoved_guard_reference_stays_live_witness :
  run prefer_reader Samples.pending_run (program_initial 7%N)
      (as_program 7%N Samples.pending_system)
  /\ no_moves Samples.pending_run
  /\ In (holder (mk_holder (Some the_lifeline) 7%N))
        (p_guards (as_program 7%N Samples.pending_system))
  /\ to_pointer (mk_holder (Some the_lifeline) 7%N) <> nullptr
  /\ wrlock_grant (controlBlock (p_cell (as_program 7%N
                                            Samples.pending_system)))
     = None.
Proof.
  destruct (pending_run_ok prefer_reader) as [Hrun Hplain].
  assert (Hin : In (holder (mk_holder (Some the_lifeline) 7%N))
                   (p_guards (as_program 7%N Samples.pending_system)))
    by (left; reflexivity).
  assert (Hp : to_pointer (mk_holder (Some the_lifeline) 7%N) <> nullptr)
    by discriminate.
  refine (conj Hrun (conj Hplain (conj Hin (conj Hp _)))).
  exact (proj2 (proj2 (proj2 (proj2 (proj2 (proj2
           (unmoved_guard_reference_stays_live prefer_reader 7%N _ _ _
              Hrun Hplain Hin Hp))))))).
Defined.

(** X8. In every run in which nothing is moved, while the owner holds
    the write lock inside [waitForDeath] no guard holds the lifeline:
    nobody is inside [retain], every guard in scope converts to a null
    pointer, and a [retain] made now is refused without changing who
    holds the lock. *)
Theorem unmoved_guards_excluded_while_locked pref obj tr t :
  run pref tr (program_initial obj) t ->
  no_moves tr ->
  holds_write_lock (p_owner t) = true ->
  readers (controlBlock (p_cell t)) = 0%nat
  /\ ~ In in_retain (p_guards t)
  /\ (forall h, In (holder h) (p_guards t) -> to_pointer h = nullptr)
  /\ fst (retain pref (p_cell t)) = nullptr
  /\ same_counts (controlBlock (p_cell t))
                 (controlBlock (snd (retain pref (p_cell t)))).
Proof.
  intros Hrun Hplain Hlock.
  destruct (plain_run_reachable _ _ _ _ Hrun Hplain) as (s & -> & Hreach).
  cbn in Hlock |- *.
  destruct (exclusive_phase_excludes_guards pref obj s Hreach Hlock)
    as (H1 & H2 & H3 & H4 & H5).
  split; [exact H1|]. split; [|split; [|split; assumption]].
  - intros Hin. apply H2. apply in_as_guard_obj_retain. exact Hin.
  - intros h Hin. apply in_as_guard_obj_holder in Hin as (p & -> & Hin).
    cbn. apply H3. exact Hin.
Qed.

Lemma unmoved_guards_excluded_while_locked_witness :
  run prefer_reader Samples.locked_run (program_initial 7%N)
      (as_program 7%N Samples.locked_system)
  /\ no_moves Samples.locked_run
  /\ holds_write_lock (p_owner (as_program 7%N Samples.locked_system)) = true
  /\ readers (controlBlock (p_cell (as_program 7%N Samples.locked_system)))
     = 0%nat.
Proof.
  destruct (locked_run_ok prefer_reader) as [Hrun Hplain].
  refine (conj Hrun (conj Hplain (conj eq_refl _))).
  exact (proj1 (unmoved_guards_excluded_while_locked prefer_reader 7%N _ _
                  Hrun Hplain eq_refl)).
Defined.

(** X9. In every run in which nothing is moved, the lifeline stores the
    object's address or null and nothing else, every guard in scope refers
    to the lifeline, and its pointer is one of these two. *)
Theorem unmoved_guard_pointer_is_object_or_null pref obj tr t :
  run pref tr (program_initial obj) t ->
  no_moves tr ->
  (object (p_cell t) = obj \/ object (p_cell t) = nullptr)
  /\ forall h, In (holder h) (p_guards t) ->
               holder_life h = Some the_lifeline
               /\ (to_pointer h = obj \/ to_pointer h = nullptr).
Proof.
  intros Hrun Hplain.
  destruct (plain_run_reachable _ _ _ _ Hrun Hplain) as (s & -> & Hreach).
  destruct (guard_pointer_is_object_or_null pref obj s Hreach) as [H1 H2].
  split; [exact H1|].
  intros h Hin. apply in_as_guard_obj_holder in Hin as (p & -> & Hin).
  split; [reflexivity|]. cbn. apply H2. exact Hin.
Qed.

Lemma unmoved_guard_pointer_is_object_or_null_witness :
  run prefer_writer Samples.pending_run (program_initial 7%N)
      (as_program 7%N Samples.pending_system)
  /\ no_moves Samples.pending_run
  /\ (object (p_cell (as_program 7%N Samples.pending_system)) = 7%N
      \/ object (p_cell (as_program 7%N Samples.pending_system)) = nullptr).
Proof.
  destruct (pending_run_ok prefer_writer) as [Hrun Hplain].
  refine (conj Hrun (conj Hplain _)).
  exact (proj1 (unmoved_guard_pointer_is_object_or_null prefer_writer 7%N
                  _ _ Hrun Hplain)).
Defined.

(** X10. In every run in which nothing is moved, as long as the object
    (at a non-null address) has not been cleared, the read locks held on
    the lifeline are exactly those of the guards that are inside [retain]
    or in scope with a non-null pointer, so with no guard left the lock
    has no reader; and the owner is the only writer that ever waits. *)
Theorem unmoved_readers_are_guards pref obj tr t :
  obj <> nullptr ->
  run pref tr (program_initial obj) t ->
  no_moves tr ->
  after_clear (p_owner t) = false ->
  readers (controlBlock (p_cell t)) = lock_holders (p_guards t)
  /\ (p_guards t = [] -> readers (controlBlock (p_cell t)) = 0%nat)
  /\ waiting_writers (controlBlock (p_cell t))
     = match p_owner t with owner_waiting => 1%nat | _ => 0%nat end.
Proof.
  intros Hobj Hrun Hplain Ha.
  destruct (plain_run_reachable _ _ _ _ Hrun Hplain) as (s & -> & Hreach).
  cbn in Ha |- *.
  destruct (readers_are_guards pref obj s Hobj Hreach Ha) as (H1 & _ & H3).
  rewrite lock_holders_as_guard_obj.
  split; [exact H1|]. split; [|exact H3].
  intros Hgs. rewrite H1. destruct (guards s); [reflexivity|discriminate].
Qed.

Lemma unmoved_readers_are_guards_witness :
  7%N <> nullptr
  /\ run prefer_writer Samples.busy_run (program_initial 7%N)
         (as_program 7%N Samples.busy_system)
  /\ no_moves Samples.busy_run
  /\ after_clear (p_owner (as_program 7%N Samples.busy_system)) = false
  /\ readers (controlBlock (p_cell (as_program 7%N Samples.busy_system)))
     = lock_holders (p_guards (as_program 7%N Samples.busy_system)).
Proof.
  assert (Hp : 7%N <> nullptr) by discriminate.
  destruct (busy_run_ok prefer_writer) as [Hrun Hplain].
  refine (conj Hp (conj Hrun (conj Hplain (conj eq_refl _)))).
  exact (proj1 (unmoved_readers_are_guards prefer_writer 7%N _ _ Hp Hrun
                  Hplain eq_refl)).
Defined.


